(** * ObsidianScripts: the cached bearer-token provider and the note generators

    A shallow embedding of the scripts of the repository:

    - [Games] is the IGDB script (token cache [getToken], [fetchNewToken],
      [fetchGameById], [generateMarkdown], [main]);
    - [Books], [LightNovels], [Media] and [Manga] are the four scripts that
      compute a slug from a title.

    The scripts run on Node.  What they use of the JavaScript runtime is
    modelled in [JS] (values read back by [JSON.parse], the coercions done
    by the [>] and [+] operators, the rounding of a sum, the two
    regular-expression replacements) and in [Runtime] (the token file, the
    clock, the token endpoint, the console). *)

From Stdlib Require Import ZArith QArith List String Ascii Bool Lia Lqa.
From Stdlib Require Import DecimalString.
Import ListNotations.

Set Warnings "-register-all".
Close Scope Q_scope.
Open Scope string_scope.
Open Scope list_scope.
Open Scope Z_scope.

(* ================================================================== *)
(** * JavaScript values *)
(* ================================================================== *)

Module JS.

(** ** Numbers

    A JavaScript number is a binary64 float.  The model keeps the exact
    mathematical value of every finite number in [Q] and has [NaN] and the
    two infinities beside it.  A number read from a JSON text is taken by
    the value of its float; the one operation of the scripts that rounds,
    the sum in [getToken], rounds with [binary64] below. *)

Inductive number : Type :=
| NaN
| Infinity (negative : bool)
| Fin (q : Q).

(** [x < y] on numbers, as the relational operators compute it: a
    comparison with [NaN] is undefined, which every operator reads as
    [false]. *)
Definition number_lt (x y : number) : bool :=
  match x, y with
  | NaN, _ | _, NaN => false
  | Infinity true, Infinity true => false
  | Infinity true, _ => true
  | _, Infinity true => false
  | Infinity false, _ => false
  | _, Infinity false => true
  | Fin a, Fin b => negb (Qle_bool b a)
  end.

(** ** Parsed JSON

    [json] is what [JSON.parse] returns: [null], booleans, finite numbers,
    strings, arrays, and objects whose members are listed in the order of
    their keys (one member per key). *)

Inductive json : Type :=
| JNull
| JBool (b : bool)
| JNum (q : Q)
| JStr (s : string)
| JArr (items : list json)
| JObj (members : list (string * json)).

(** A value of type [any] in the scripts: [undefined], or a parsed value. *)
Inductive jsval : Type :=
| undefined
| val (j : json).

Definition null : jsval := val JNull.

Coercion val : json >-> jsval.

(** Own property of an object, by key. *)
Fixpoint lookup (key : string) (members : list (string * json)) : jsval :=
  match members with
  | [] => undefined
  | (k, v) :: rest => if String.eqb k key then val v else lookup key rest
  end.

Definition has_key (key : string) (members : list (string * json)) : bool :=
  existsb (fun kv => String.eqb (fst kv) key) members.

(** ** Errors that the scripts can see thrown *)

Inductive error : Type :=
| AxiosError (status : option Z) (message : string)
| TypeError (message : string)
| SyntaxError (message : string)
| SystemError (code : string).

(** The result of evaluating an expression: a value or a thrown error. *)
Inductive evaluation (A : Type) : Type :=
| Value (a : A)
| Thrown (e : error).
Arguments Value {A} a.
Arguments Thrown {A} e.

(** [v.key] for a parsed value [v] and a key that no prototype defines
    (such as [expires_at] and [access_token]): reading a property of [null]
    throws, an object gives its own member, every other value gives
    [undefined]. *)
Definition get (v : json) (key : string) : evaluation jsval :=
  match v with
  | JNull => Thrown (TypeError "Cannot read properties of null")
  | JObj members => Value (lookup key members)
  | _ => Value undefined
  end.

(** ** StringToNumber

    Strings are kept as the bytes of their UTF-8 text.  [StringToNumber]
    trims white space and line terminators at both ends, reads the empty
    string as [0], and otherwise wants a whole numeric literal: a signed
    decimal literal (digits, fraction, exponent, or [Infinity]) or an
    unsigned [0x], [0o] or [0b] integer.  Anything else is [NaN]. *)

Definition bytes (s : string) : list N := map N_of_ascii (list_ascii_of_string s).

Definition ws1 (a : N) : bool :=
  ((9 <=? a) && (a <=? 13) || (a =? 32))%N.

(* U+00A0 *)
Definition ws2 (a b : N) : bool :=
  ((a =? 194) && (b =? 160))%N.

(* U+1680, U+2000..U+200A, U+2028, U+2029, U+202F, U+205F, U+3000, U+FEFF *)
Definition ws3 (a b c : N) : bool :=
  ((a =? 225) && (b =? 154) && (c =? 128)
   || (a =? 226) && (b =? 128)
      && ((128 <=? c) && (c <=? 138) || (c =? 168) || (c =? 169) || (c =? 175))
   || (a =? 226) && (b =? 129) && (c =? 159)
   || (a =? 227) && (b =? 128) && (c =? 128)
   || (a =? 239) && (b =? 187) && (c =? 191))%N.

Fixpoint trim_start (l : list N) : list N :=
  match l with
  | [] => []
  | a :: r1 =>
    if ws1 a then trim_start r1 else
    match r1 with
    | [] => l
    | b :: r2 =>
      if ws2 a b then trim_start r2 else
      match r2 with
      | [] => l
      | c :: r3 => if ws3 a b c then trim_start r3 else l
      end
    end
  end.

Definition all_white (l : list N) : bool :=
  match trim_start l with [] => true | _ => false end.

Fixpoint trim_end (l : list N) : list N :=
  match l with
  | [] => []
  | a :: r => if all_white l then [] else a :: trim_end r
  end.

(** Value of a digit in a radix up to 16, when it is one. *)
Definition digit_in (radix : N) (a : N) : option Z :=
  let d := (if (48 <=? a) && (a <=? 57) then Some (a - 48)
            else if (97 <=? a) && (a <=? 102) then Some (a - 87)
            else if (65 <=? a) && (a <=? 70) then Some (a - 55)
            else None)%N in
  match d with
  | Some d => if (d <? radix)%N then Some (Z.of_N d) else None
  | None => None
  end.

(** Longest prefix of digits in [radix]: its digit values and the rest. *)
Fixpoint span_digits (radix : N) (l : list N) : list Z * list N :=
  match l with
  | [] => ([], [])
  | a :: r =>
    match digit_in radix a with
    | Some d => let (ds, rest) := span_digits radix r in (d :: ds, rest)
    | None => ([], l)
    end
  end.

Definition digits_value (radix : Z) (ds : list Z) : Z :=
  fold_left (fun acc d => acc * radix + d) ds 0.

(** [0x..], [0o..], [0b..]: at least one digit and nothing after. *)
Definition NonDecimalIntegerLiteral (l : list N) : option Z :=
  match l with
  | 48%N :: p :: r =>
    let radix :=
      (if (p =? 120) || (p =? 88) then Some 16
       else if (p =? 111) || (p =? 79) then Some 8
       else if (p =? 98) || (p =? 66) then Some 2
       else None)%N in
    match radix with
    | Some rx =>
      match span_digits rx r with
      | ((_ :: _) as ds, []) => Some (digits_value (Z.of_N rx) ds)
      | _ => None
      end
    | None => None
    end
  | _ => None
  end.

(** [e] or [E], an optional sign and at least one digit, up to the end. *)
Definition ExponentPart (l : list N) : option Z :=
  match l with
  | [] => Some 0
  | e :: r =>
    if ((e =? 101) || (e =? 69))%N then
      let (neg, r') :=
        match r with
        | 45%N :: r' => (true, r')
        | 43%N :: r' => (false, r')
        | _ => (false, r)
        end in
      match span_digits 10 r' with
      | ((_ :: _) as ds, []) =>
        Some (if neg then - digits_value 10 ds else digits_value 10 ds)
      | _ => None
      end
    else None
  end.

Definition StrUnsignedDecimalLiteral (l : list N) : option number :=
  if list_eq_dec N.eq_dec l (bytes "Infinity") then Some (Infinity false) else
  let (int_part, r) := span_digits 10 l in
  let (frac_part, r') :=
    match r with
    | 46%N :: after_dot => span_digits 10 after_dot
    | _ => ([], r)
    end in
  match int_part ++ frac_part with
  | [] => None
  | ds =>
    match ExponentPart r' with
    | Some e =>
      Some (Fin (inject_Z (digits_value 10 ds)
                 * Qpower (10 # 1) (e - Z.of_nat (List.length frac_part)))%Q)
    | None => None
    end
  end.

Definition negate (n : number) : number :=
  match n with
  | NaN => NaN
  | Infinity s => Infinity (negb s)
  | Fin q => Fin (- q)%Q
  end.

Definition StrDecimalLiteral (l : list N) : option number :=
  match l with
  | 45%N :: r => option_map negate (StrUnsignedDecimalLiteral r)
  | 43%N :: r => StrUnsignedDecimalLiteral r
  | _ => StrUnsignedDecimalLiteral l
  end.

Definition StringToNumber (s : string) : number :=
  match trim_end (trim_start (bytes s)) with
  | [] => Fin 0
  | l =>
    match NonDecimalIntegerLiteral l with
    | Some z => Fin (inject_Z z)
    | None =>
      match StrDecimalLiteral l with
      | Some n => n
      | None => NaN
      end
    end
  end.

(** ** ToPrimitive and ToNumber on parsed values

    No member of a parsed object is callable.  An object with an own
    [toString] member therefore has no usable conversion method and
    converting it throws a [TypeError]; any other object converts to the
    string [[object Object]].  An array converts to the [join] of its
    elements, which converts every element in turn. *)

Fixpoint unconvertible (v : json) : bool :=
  match v with
  | JObj members => has_key "toString" members
  | JArr items => existsb unconvertible items
  | _ => false
  end.

(** The number that a convertible value becomes.  [in_array] tells whether
    the value is read as an element of a joined array, where it goes through
    its string first: [null] is the empty string there, which reads as [0];
    a boolean is [true] or [false], which is no numeric literal; a number
    prints to a literal that reads back as the same number; a string is
    itself.  An array of two or more elements joins to a string with a
    comma, which is no numeric literal either. *)
Fixpoint to_number (in_array : bool) (v : json) : number :=
  match v with
  | JNull => Fin 0
  | JBool b => if in_array then NaN else Fin (if b then 1 else 0)
  | JNum q => Fin q
  | JStr s => StringToNumber s
  | JArr [] => Fin 0
  | JArr [x] => to_number true x
  | JArr _ => NaN
  | JObj _ => NaN
  end.

Definition ToNumber (v : jsval) : evaluation number :=
  match v with
  | undefined => Value NaN
  | val j =>
    if unconvertible j
    then Thrown (TypeError "Cannot convert object to primitive value")
    else Value (to_number false j)
  end.

(** [v > y] for a value [v] and a number [y]. *)
Definition greater_than (v : jsval) (y : Z) : evaluation bool :=
  match ToNumber v with
  | Value n => Value (number_lt (Fin (inject_Z y)) n)
  | Thrown e => Thrown e
  end.

(** ** Strings

    A string is the sequence of bytes of its UTF-8 text; positions count
    bytes, which are the UTF-16 units of JavaScript on ASCII text. *)

Definition nl : string := String "010" EmptyString.
Definition dq : string := String "034" EmptyString.

(** [String(n)] for an integer. *)
Definition decimal (n : Z) : string := NilZero.string_of_int (Z.to_int n).

Definition is_upper (a : ascii) : bool :=
  let n := N_of_ascii a in ((65 <=? n) && (n <=? 90))%N.

Definition lower_alnum (a : ascii) : bool :=
  let n := N_of_ascii a in
  ((97 <=? n) && (n <=? 122) || (48 <=? n) && (n <=? 57))%N.

(** [s.toLowerCase()].  The ASCII capitals map to their small letters.  Two
    characters outside ASCII have a lowercase form with an ASCII letter in
    it: the Kelvin sign U+212A becomes [k], and U+0130 becomes [i] followed
    by U+0307.  Every other character outside ASCII has a lowercase form
    outside ASCII and is left as it is here: each use of [toLowerCase] in
    the scripts is followed by a replacement that maps all bytes outside
    [a-z0-9] alike. *)
Fixpoint toLowerCase (s : string) : string :=
  match s with
  | EmptyString => EmptyString
  | String a r =>
    if is_upper a
    then String (ascii_of_N (N_of_ascii a + 32)) (toLowerCase r)
    else
      match a, r with
      | "226"%char, String "132" (String "170" r') =>
        String "k" (toLowerCase r')
      | "196"%char, String "176" r' =>
        String "i" (String "204" (String "135" (toLowerCase r')))
      | _, _ => String a (toLowerCase r)
      end
  end.

(** [s.replace(/[^a-z0-9]+/g, "-")]: every maximal run of characters
    outside [a-z0-9] becomes one hyphen.  [in_run] tells that the
    character before belongs to a run already replaced. *)
Fixpoint replace_runs (in_run : bool) (s : string) : string :=
  match s with
  | EmptyString => EmptyString
  | String a r =>
    if lower_alnum a then String a (replace_runs false r)
    else if in_run then replace_runs true r
    else String "-" (replace_runs true r)
  end.

Fixpoint all_hyphens (s : string) : bool :=
  match s with
  | EmptyString => true
  | String a r => Ascii.eqb a "-" && all_hyphens r
  end.

(** The [^-+] alternative: the hyphens at the start go. *)
Fixpoint strip_leading_hyphens (s : string) : string :=
  match s with
  | EmptyString => s
  | String a r => if Ascii.eqb a "-" then strip_leading_hyphens r else s
  end.

(** The [-+$] alternative: the hyphens that reach the end go. *)
Fixpoint strip_trailing_hyphens (s : string) : string :=
  match s with
  | EmptyString => EmptyString
  | String a r => if all_hyphens s then EmptyString else String a (strip_trailing_hyphens r)
  end.

(** [s.replace(/^-+|-+$/g, '')] *)
Definition strip_hyphens (s : string) : string :=
  strip_trailing_hyphens (strip_leading_hyphens s).

(** The expression that every script but the IGDB one applies to a title,
    and to every tag it prints:
    [s.toLowerCase().replace(/[^a-z0-9]+/g, '-').replace(/^-+|-+$/g, '')]. *)
Definition slugify (s : string) : string :=
  strip_hyphens (replace_runs false (toLowerCase s)).

(** [s.split("\n")] *)
Fixpoint split_lines (s : string) : list string :=
  match s with
  | EmptyString => [EmptyString]
  | String a r =>
    if Ascii.eqb a "010" then EmptyString :: split_lines r
    else
      match split_lines r with
      | first :: others => String a first :: others
      | [] => [String a EmptyString]
      end
  end.

(** [l.join(sep)] *)
Definition join (sep : string) (l : list string) : string := String.concat sep l.

(** Number of bytes of the character that starts with the byte [lead]. *)
Definition char_bytes (lead : N) : nat :=
  if (lead <? 192)%N then 1 else if (lead <? 224)%N then 2
  else if (lead <? 240)%N then 3 else 4.

(** [s.slice(0, n)]: the first [n] UTF-16 units of [s].  A character of one,
    two or three bytes is one unit; a character of four bytes is two units,
    and a cut between the two leaves a lone surrogate, which is written out
    as U+FFFD. *)
Fixpoint slice0 (n : nat) (s : string) : string :=
  match n with
  | O => EmptyString
  | S n' =>
    match s with
    | EmptyString => EmptyString
    | String a _ =>
      let width := char_bytes (N_of_ascii a) in
      let rest := substring width (String.length s - width) s in
      if (width =? 4)%nat then
        match n' with
        | O => String "239" (String "191" (String "189" EmptyString))
        | S n'' => (substring 0 4 s ++ slice0 n'' rest)%string
        end
      else (substring 0 width s ++ slice0 n' rest)%string
    end
  end.

(** [s.startsWith(p)] *)
Definition startsWith (p s : string) : bool := prefix p s.

(** [s.replace(pattern, replacement)] for a string pattern: the first
    occurrence only. *)
Fixpoint replace_first (pattern replacement s : string) : string :=
  if prefix pattern s
  then replacement ++ substring (String.length pattern) (String.length s) s
  else
    match s with
    | EmptyString => EmptyString
    | String a r => String a (replace_first pattern replacement r)
    end.

(** Whether a condition sees a value as true. *)
Definition truthy (v : jsval) : bool :=
  match v with
  | undefined => false
  | val JNull => false
  | val (JBool b) => b
  | val (JNum q) => negb (Qeq_bool q 0)
  | val (JStr s) => negb (String.eqb s EmptyString)
  | val _ => true
  end.

(** Truth of a string that may be [undefined]; [a || b] on two of them. *)
Definition nonempty (s : option string) : bool :=
  match s with
  | Some (String _ _) => true
  | _ => false
  end.

Definition or_else (a b : option string) : option string :=
  if nonempty a then a else b.

(** [`${x}`] for a string that may be [undefined]. *)
Definition interpolate (x : option string) : string :=
  match x with
  | Some s => s
  | None => "undefined"
  end.

(** ** Tests on numbers *)

(** [isNaN(n)] *)
Definition isNaN (n : number) : bool :=
  match n with NaN => true | _ => false end.

(** [Number.isInteger(n)]: a finite number with no fractional part. *)
Definition Number_isInteger (n : number) : bool :=
  match n with
  | Fin q => (Qnum q mod Zpos (Qden q) =? 0)%Z
  | _ => false
  end.

(** [x <= y]: false when either side is [NaN], else the negation of
    [y < x]. *)
Definition number_le (x y : number) : bool :=
  match x, y with
  | NaN, _ | _, NaN => false
  | _, _ => negb (number_lt y x)
  end.

(** ** Addition

    The sum of two numbers is the binary64 float nearest to their exact
    sum. *)

(** The integer nearest to [n / d], the even one of two that are equally
    near, for [0 <= n] and [0 < d]. *)
Definition nearest_even (n d : Z) : Z :=
  let q := n / d in
  match 2 * (n mod d) ?= d with
  | Lt => q
  | Gt => q + 1
  | Eq => if Z.even q then q else q + 1
  end.

(** [m * 2^e] *)
Definition scale2 (m e : Z) : Q :=
  if 0 <=? e then inject_Z (m * 2 ^ e) else Qred (m # Z.to_pos (2 ^ (- e))).

(** The binary64 float nearest to a rational: 53 bits from the leading
    one, nothing below [2^-1074], ties to even, and an infinity from
    [2^1024 - 2^970] on. *)
Definition binary64 (q : Q) : number :=
  let n := Z.abs (Qnum q) in
  let d := Zpos (Qden q) in
  if n =? 0 then Fin 0 else
  let lg := Z.log2 n - Z.log2 d in
  let leading :=
    if (if 0 <=? lg then d * 2 ^ lg <=? n else d <=? n * 2 ^ (- lg))
    then lg else lg - 1 in
  let e := Z.max (leading - 52) (-1074) in
  let m := if 0 <=? e then nearest_even n (d * 2 ^ e)
           else nearest_even (n * 2 ^ (- e)) d in
  if (971 <? e) || ((e =? 971) && (m =? 2 ^ 53))
  then Infinity (Qnum q <? 0)
  else Fin (scale2 (Z.sgn (Qnum q) * m) e).

(** [x + y] on numbers *)
Definition number_add (x y : number) : number :=
  match x, y with
  | NaN, _ | _, NaN => NaN
  | Infinity a, Infinity b => if Bool.eqb a b then Infinity a else NaN
  | Infinity a, _ => Infinity a
  | _, Infinity b => Infinity b
  | Fin a, Fin b => binary64 (a + b)
  end.

(** ** Number::toString *)

Definition pow10 (e : Z) : Q := Qpower (10 # 1) e.

(** Number of decimal digits of a positive integer. *)
Fixpoint count_digits (fuel : nat) (a : Z) : Z :=
  match fuel with
  | O => 1
  | S fuel' => if a <? 10 then 1 else 1 + count_digits fuel' (a / 10)
  end.

(** [n] with [10^(n-1) <= x < 10^n], for [0 < x]. *)
Definition magnitude (x : Q) : Z :=
  let digits a := count_digits (Z.to_nat (Z.log2 a)) a in
  let n := digits (Qnum x) - digits (Zpos (Qden x)) in
  if Qle_bool (pow10 n) x then n + 1 else n.

Definition same_number (a b : number) : bool :=
  match a, b with
  | Fin p, Fin q => Qeq_bool p q
  | _, _ => false
  end.

(** The digits [s] and the exponent [n] of the shortest decimal
    [s * 10^(n-k)], of [k] digits, that reads back as the float [x]; of two
    such, the nearer to [x], then the even one. *)
Fixpoint shortest (more : nat) (k : Z) (x : Q) (n : Z) : Z * Z :=
  let unit := pow10 (n - k) in
  let t := (x / unit)%Q in
  let lo := Qnum t / Zpos (Qden t) in
  let hi := lo + 1 in
  let reads s := same_number (binary64 (inject_Z s * unit)%Q) (Fin x) in
  let settle s := if s =? 10 ^ k then (10 ^ (k - 1), n + 1) else (s, n) in
  match reads lo, reads hi with
  | true, true =>
    match (t - inject_Z lo ?= inject_Z hi - t)%Q with
    | Lt => settle lo
    | Gt => settle hi
    | Eq => settle (if Z.even lo then lo else hi)
    end
  | true, false => settle lo
  | false, true => settle hi
  | false, false =>
    match more with
    | O => settle lo
    | S more' => shortest more' (k + 1) x n
    end
  end.

Fixpoint zeros (n : nat) : string :=
  match n with O => EmptyString | S n' => String "0" (zeros n') end.

(** [String(x)] for the float nearest to [q]. *)
Definition number_text (q : Q) : string :=
  match binary64 q with
  | Fin y =>
    if Qeq_bool y 0 then "0" else
    let x := (Z.abs (Qnum y) # Qden y)%Q in
    let sign := if Qnum y <? 0 then "-" else EmptyString in
    let (s, n) := shortest 17 1 x (magnitude x) in
    let digits := decimal s in
    let k := Z.of_nat (String.length digits) in
    let e := n - 1 in
    let mark := if e <? 0 then "e-" else "e+" in
    let exponent := (mark ++ decimal (Z.abs e))%string in
    let body :=
      if (k <=? n) && (n <=? 21)
      then (digits ++ zeros (Z.to_nat (n - k)))%string
      else if (0 <? n) && (n <=? 21)
      then (substring 0 (Z.to_nat n) digits ++ "."
            ++ substring (Z.to_nat n) (Z.to_nat (k - n)) digits)%string
      else if (-6 <? n) && (n <=? 0)
      then ("0." ++ zeros (Z.to_nat (- n)) ++ digits)%string
      else if k =? 1 then (digits ++ exponent)%string
      else (substring 0 1 digits ++ "." ++ substring 1 (Z.to_nat (k - 1)) digits
            ++ exponent)%string in
    (sign ++ body)%string
  | Infinity true => "-Infinity"
  | Infinity false => "Infinity"
  | NaN => "NaN"
  end.

(** [String(v)] for a parsed value that has a conversion: an array is the
    [join] of its elements, where [null] is the empty string. *)
Fixpoint to_string (v : json) : string :=
  match v with
  | JNull => "null"
  | JBool b => if b then "true" else "false"
  | JNum q => number_text q
  | JStr s => s
  | JArr items =>
    join "," (map (fun x => match x with JNull => EmptyString | _ => to_string x end) items)
  | JObj _ => "[object Object]"
  end.

(** ** The [+] operator

    [x + v] for a number [x] and a value [v]: [v] goes through ToPrimitive;
    when that gives a string, the result is the concatenation of [String(x)]
    and that string, else the sum of [x] and [ToNumber(v)]. *)

Inductive primitive : Type :=
| PNum (n : number)
| PStr (s : string).

Definition plus (x : Z) (v : jsval) : evaluation primitive :=
  match v with
  | undefined => Value (PNum NaN)
  | val j =>
    if unconvertible j
    then Thrown (TypeError "Cannot convert object to primitive value")
    else
      match j with
      | JStr s => Value (PStr (number_text (inject_Z x) ++ s))
      | JArr _ | JObj _ => Value (PStr (number_text (inject_Z x) ++ to_string j))
      | _ => Value (PNum (number_add (Fin (inject_Z x)) (to_number false j)))
      end
  end.

(** ** JSON.stringify of an object literal

    A member whose value is [undefined] is left out; a number that is not
    finite is written [null]. *)

Definition json_of_primitive (p : primitive) : json :=
  match p with
  | PNum (Fin q) => JNum q
  | PNum _ => JNull
  | PStr s => JStr s
  end.

Definition object_literal (members : list (string * jsval)) : json :=
  JObj (flat_map (fun kv => match snd kv with
                            | undefined => []
                            | val j => [(fst kv, j)]
                            end) members).

End JS.

(* ================================================================== *)
(** * The runtime around the scripts *)
(* ================================================================== *)

Module Runtime.
Import JS.

(** ** The world

    A file's text is kept as what [JSON.parse] makes of it: the document it
    denotes, or [Garbage] for any text that [JSON.parse] rejects. *)

Inductive text : Type :=
| Json (doc : json)
| Garbage.

Record File : Type := { content : text; readable : bool }.

(** A response of the token endpoint.  [data] is the body as axios hands
    it over: the value that the body denotes as a JSON text, or the text
    itself, as a string, when it is none.  [fetchNewToken] declares the
    type [{ access_token: string, expires_in: number }] for it and checks
    nothing. *)
Record Response : Type := { status : Z; data : json }.

(** What the token endpoint does with one request. *)
Inductive Exchange : Type :=
| Http (r : Response)
| Unreachable (message : string).

Inductive Event : Type :=
| Post (url : string) (params : list (string * jsval))
| WriteFile (path : string) (t : text)
| ConsoleError (message : string) (e : error).

(** Why a file cannot be written: the code of the error, and whether the
    error comes once the file is open and truncated (as [ENOSPC] does) or
    before the file is touched (as [EACCES] does). *)
Record WriteFailure : Type := { errno : string; truncated : bool }.

Record World : Type := {
  env : string -> jsval;        (* process.env *)
  files : string -> option File;
  write_failure : string -> option WriteFailure;  (* the paths that cannot be written *)
  clock : nat -> Z;             (* Date.now() at its successive calls, ms *)
  ticks : nat;                  (* calls of Date.now() so far *)
  endpoint : nat -> Exchange;   (* outcome of the successive requests *)
  trace : list Event            (* what happened so far, oldest first *)
}.

Definition is_post (e : Event) : bool :=
  match e with Post _ _ => true | _ => false end.

Definition is_write (e : Event) : bool :=
  match e with WriteFile _ _ => true | _ => false end.

(** Number of requests sent to the network in a trace. *)
Definition requests (t : list Event) : nat := List.length (filter is_post t).

Definition log (e : Event) (w : World) : World :=
  {| env := env w; files := files w; write_failure := write_failure w;
     clock := clock w; ticks := ticks w;
     endpoint := endpoint w; trace := trace w ++ [e] |}.

Definition tick (w : World) : World :=
  {| env := env w; files := files w; write_failure := write_failure w;
     clock := clock w; ticks := S (ticks w);
     endpoint := endpoint w; trace := trace w |}.

Definition store (path : string) (f : File) (w : World) : World :=
  {| env := env w;
     files := fun p => if String.eqb p path then Some f else files w p;
     write_failure := write_failure w;
     clock := clock w; ticks := ticks w;
     endpoint := endpoint w; trace := trace w |}.

(** ** Statements

    A statement of a function body that returns an [R] completes normally
    with a value, returns from the function, or throws.  A body is a
    statement that cannot complete normally: its type is [Js R Empty_set]. *)

Inductive completion (R A : Type) : Type :=
| Normal (a : A)
| Return (r : R)
| Throw (e : error).
Arguments Normal {R A} a.
Arguments Return {R A} r.
Arguments Throw {R A} e.

Definition Js (R A : Type) : Type := World -> completion R A * World.

Definition ret {R A} (a : A) : Js R A := fun w => (Normal a, w).

Definition bind {R A B} (c : Js R A) (k : A -> Js R B) : Js R B :=
  fun w =>
    match c w with
    | (Normal a, w') => k a w'
    | (Return r, w') => (Return r, w')
    | (Throw e, w') => (Throw e, w')
    end.

Definition return_ {R A} (r : R) : Js R A := fun w => (Return r, w).

Definition throw {R A} (e : error) : Js R A := fun w => (Throw e, w).

Definition try_catch {R A} (block : Js R A) (handler : error -> Js R A) : Js R A :=
  fun w =>
    match block w with
    | (Throw e, w') => handler e w'
    | done => done
    end.

(** [if (b) { c }] *)
Definition when {R} (b : bool) (c : Js R unit) : Js R unit :=
  if b then c else ret tt.

(** Evaluation of an expression that can throw. *)
Definition eval {R A} (x : evaluation A) : Js R A :=
  match x with
  | Value a => ret a
  | Thrown e => throw e
  end.

(** [await f()] for a function with body [body]. *)
Definition call {R R'} (body : Js R Empty_set) : Js R' R :=
  fun w =>
    match body w with
    | (Normal a, _) => match a with end
    | (Return r, w') => (Normal r, w')
    | (Throw e, w') => (Throw e, w')
    end.

(** A call from outside: the value returned or the error it propagates. *)
Definition run {R} (body : Js R Empty_set) (w : World) : evaluation R * World :=
  match body w with
  | (Normal a, _) => match a with end
  | (Return r, w') => (Value r, w')
  | (Throw e, w') => (Thrown e, w')
  end.

Declare Scope js_scope.
Delimit Scope js_scope with js.
Notation "x <- c ;; k" := (bind c (fun x => k))
  (at level 61, c at next level, right associativity) : js_scope.
Notation "c ;; k" := (bind c (fun _ => k))
  (at level 61, right associativity) : js_scope.
Notation "'try' block 'catch' handler" := (try_catch block handler)
  (at level 62, block at level 61, handler at level 61) : js_scope.

(** ** What the scripts call *)

(** [fs.existsSync(path)] *)
Definition existsSync {R} (path : string) : Js R bool :=
  fun w => (Normal (match files w path with Some _ => true | None => false end), w).

(** [fs.readFileSync(path, 'utf-8')] *)
Definition readFileSync {R} (path : string) : Js R text :=
  fun w =>
    match files w path with
    | None => (Throw (SystemError "ENOENT"), w)
    | Some f =>
      if readable f then (Normal (content f), w)
      else (Throw (SystemError "EACCES"), w)
    end.

(** [fs.writeFileSync(path, t)]: the file now holds [t]; a file that did not
    exist is created readable.  When the path cannot be written the call
    throws; the file is then as it was, or holds the start of [t] that got
    through, which is no JSON text, when the error came after the file was
    truncated. *)
Definition writeFileSync {R} (path : string) (t : text) : Js R unit :=
  fun w =>
    let r := match files w path with Some f => readable f | None => true end in
    match write_failure w path with
    | None =>
      (Normal tt, log (WriteFile path t) (store path {| content := t; readable := r |} w))
    | Some failure =>
      (Throw (SystemError (errno failure)),
       if truncated failure
       then log (WriteFile path Garbage)
              (store path {| content := Garbage; readable := r |} w)
       else w)
    end.

(** [JSON.parse(t)] *)
Definition JSON_parse {R} (t : text) : Js R json :=
  match t with
  | Json doc => ret doc
  | Garbage => throw (SyntaxError "Unexpected token in JSON")
  end.

(** [JSON.stringify(doc, null, 4)] *)
Definition JSON_stringify (doc : json) : text := Json doc.

(** [Date.now()] *)
Definition Date_now {R} : Js R Z :=
  fun w => (Normal (clock w (ticks w)), tick w).

(** [Math.floor(ms / 1000)] *)
Definition seconds (ms : Z) : Z := ms / 1000.

(** [process.env[key]] *)
Definition process_env {R} (key : string) : Js R jsval :=
  fun w => (Normal (env w key), w).

(** [console.error(message, e)] *)
Definition console_error {R} (message : string) (e : error) : Js R unit :=
  fun w => (Normal tt, log (ConsoleError message e) w).

(** axios resolves on a status from 200 to 299 and rejects on any other. *)
Definition validateStatus (s : Z) : bool := (200 <=? s) && (s <? 300).

(** [axios.post(url, null, { params })]: one request; the endpoint's answer
    to it decides between a response and an [AxiosError]. *)
Definition axios_post {R} (url : string) (params : list (string * jsval))
  : Js R Response :=
  fun w =>
    let w' := log (Post url params) w in
    match endpoint w (requests (trace w)) with
    | Http r =>
      if validateStatus (status r) then (Normal r, w')
      else (Throw (AxiosError (Some (status r))
                     ("Request failed with status code " ++ decimal (status r))), w')
    | Unreachable message => (Throw (AxiosError None message), w')
    end.

End Runtime.

(* ================================================================== *)
(** * What a script leaves in the vault *)
(* ================================================================== *)

Module Vault.

(** The calls by which a script acts on the vault or ends, in order.  The
    requests to the metadata services and the prompts are taken by their
    outcome, as arguments of the functions below. *)
Inductive Action : Type :=
| Download (url dir filename : string)          (* downloadImage(url, filename) into dir *)
| WriteMarkdown (dir filename content : string) (* createMarkdownFile(content, filename) into dir *)
| Exit (code : Z).                              (* process.exit(code) *)

(** How a fetch function ends: with a record, with [null], or with the
    process. *)
Inductive fetched (A : Type) : Type :=
| Got (a : A)
| Null
| Exited.
Arguments Got {A} a.
Arguments Null {A}.
Arguments Exited {A}.

(** The last lines of every template: the summary, quoted line by line. *)
Definition quote_summary (summary : option string) : string :=
  JS.interpolate
    (option_map (fun s => JS.join JS.nl (map (fun line => "> " ++ line) (JS.split_lines s)))
       summary)%string.

(** A list of tags, one per line of the front matter. *)
Definition tag_lines (print : string -> string) (tags : option (list string)) : string :=
  JS.interpolate
    (option_map (fun l => JS.join (JS.nl ++ "    ") (map (fun t => "- " ++ print t) l))
       tags)%string.

(** What the [validate] function of a prompt answers: [true], or the
    message to show. *)
Inductive validation : Type :=
| Valid
| Invalid (message : string).

(** The test that the three ID prompts share:
    [isNaN(n) || !Number.isInteger(n) || n <= 0] for [n = Number(value)]. *)
Definition not_a_positive_integer (value : string) : bool :=
  let n := JS.StringToNumber value in
  JS.isNaN n || negb (JS.Number_isInteger n) || JS.number_le n (JS.Fin 0).

End Vault.

(* ================================================================== *)
(** * The IGDB script: token cache *)
(* ================================================================== *)

Module Games.
Import JS Runtime.
Local Open Scope js_scope.

Definition TOKEN_FILE : string := "./tokenTwitch.json".
Definition TOKEN_URL : string := "https://id.twitch.tv/oauth2/token".

(** Fetch a new access token from Twitch. *)
Definition fetchNewToken : Js json Empty_set :=
  try
    (CLIENT_ID <- process_env "CLIENT_ID" ;;
     CLIENT_SECRET <- process_env "CLIENT_SECRET" ;;
     response <- axios_post TOKEN_URL
                   [("client_id", CLIENT_ID);
                    ("client_secret", CLIENT_SECRET);
                    ("grant_type", val (JStr "client_credentials"))] ;;
     return_ (data response))
  catch (fun error =>
     console_error "Error while fetching token:" error ;;
     throw error).

(** [JSON.stringify({ access_token: token, expires_at: expires_at }, null, 4)] *)
Definition record (token : jsval) (expires_at : primitive) : text :=
  JSON_stringify
    (object_literal [("access_token", token);
                     ("expires_at", val (json_of_primitive expires_at))]).

(** The record that [getToken] saves for a token string and a finite
    expiry. *)
Definition token_record (token : string) (expires_at : Q) : json :=
  JObj [("access_token", JStr token); ("expires_at", JNum expires_at)].

(** ** Get a valid access token

    The body of [getToken] is [try { check_cache; refresh } catch (error)
    { on_error }], cut at the comments of the source. *)

(** Check if a token is already saved. *)
Definition check_cache : Js jsval unit :=
  present <- existsSync TOKEN_FILE ;;
  when present
    (t <- readFileSync TOKEN_FILE ;;
     saved <- JSON_parse t ;;
     ms <- Date_now ;;
     let now := seconds ms in
     expires_at <- eval (get saved "expires_at") ;;
     valid <- eval (greater_than expires_at now) ;;
     when valid
       (* Return the saved token *)
       (token <- eval (get saved "access_token") ;;
        return_ token)).

(** Else fetch a new token. *)
Definition refresh : Js jsval Empty_set :=
  d <- call fetchNewToken ;;
  ms <- Date_now ;;
  expires_in <- eval (get d "expires_in") ;;
  expires_at <- eval (plus (seconds ms) expires_in) ;;
  (* Save the token *)
  access_token <- eval (get d "access_token") ;;
  writeFileSync TOKEN_FILE (record access_token expires_at) ;;
  access_token <- eval (get d "access_token") ;;
  return_ access_token.

Definition on_error (error : error) : Js jsval Empty_set :=
  console_error "Error while fetching or generating token:" error ;;
  return_ null.

Definition getToken_body : Js jsval Empty_set :=
  try (check_cache ;; refresh) catch on_error.

Definition getToken : World -> evaluation jsval * World := run getToken_body.

(** ** The note of a game *)

Definition GAME_COVERS_PATH : string := "../Attachments/game_covers".
Definition GAME_PATH : string := "../Library/Games".

Record GameInfo : Type := {
  title : string;
  slug : string;
  release_date : option string;
  genres : option (list string);
  themes : option (list string);
  summary : option string
}.

(** What the script reads of [response.data[0]]. *)
Record Cover : Type := { url : option string }.

Record Game : Type := {
  g_name : string;
  g_slug : string;
  g_first_release_date : option Z;
  g_cover : option Cover;
  g_genres : option (list string);    (* genres.slug *)
  g_themes : option (list string);    (* themes.slug *)
  g_summary : option string
}.

(** [String(n).padStart(2, "0")] *)
Definition pad2 (s : string) : string :=
  match s with
  | String a EmptyString => String "0" s
  | EmptyString => "00"
  | _ => s
  end.

(** Download game cover. *)
Definition downloadImage (url filename : string) : list Vault.Action :=
  [Vault.Download url GAME_COVERS_PATH filename].

Definition createMarkdownFile (content filename : string) : list Vault.Action :=
  [Vault.WriteMarkdown GAME_PATH filename content].

(** The [validate] function of the prompt for the IGDB ID. *)
Definition validate (value : string) : Vault.validation :=
  if Vault.not_a_positive_integer value
  then Vault.Invalid "IGDB ID must be a positive integer"
  else Vault.Valid.

Section Fetch.

(** [getFullYear()], [getMonth()] and [getDate()] of [new Date(ms)] in the
    time zone of the machine. *)
Variable calendar : Z -> Z * Z * Z.

Definition format_release_date (first_release_date : option Z) : string :=
  (match first_release_date with
   | None => "NaN-NaN-NaN"
   | Some t =>
     let '(year, month, day) := calendar (t * 1000) in
     decimal year ++ "-" ++ pad2 (decimal (month + 1)) ++ "-" ++ pad2 (decimal day)
   end)%string.

(** Fetch game data from IGDB API by ID.  [token] is what [getToken] gave,
    [response] the first game of the answer when the request succeeded, and
    [confirm] the answer to the prompt. *)
Definition fetchGameById (token : evaluation jsval) (response : option Game)
    (confirm : bool) : list Vault.Action * Vault.fetched GameInfo :=
  match token with
  | Thrown _ => ([], Vault.Null)
  | Value token =>
    if negb (truthy token) then ([Vault.Exit 1], Vault.Exited) else
    match response with
    | None => ([], Vault.Null)
    | Some game_fetched =>
      if negb confirm then ([Vault.Exit 0], Vault.Exited) else
      let date_formatted := format_release_date (g_first_release_date game_fetched) in
      match g_cover game_fetched with
      | None => ([], Vault.Null)
      | Some cover =>
        let download :=
          if nonempty (url cover) then
            let cover_url := replace_first "t_thumb" "t_original" (interpolate (url cover)) in
            let cover_url :=
              if startsWith "//" cover_url then ("https:" ++ cover_url)%string
              else cover_url in
            downloadImage cover_url (g_slug game_fetched ++ ".jpg")%string
          else [] in
        (download,
         Vault.Got
           {| title := g_name game_fetched;
              slug := g_slug game_fetched;
              release_date := Some date_formatted;
              genres := Some (match g_genres game_fetched with Some l => l | None => ["unknown"] end);
              themes := Some (match g_themes game_fetched with Some l => l | None => ["unknown"] end);
              summary := Some (match g_summary game_fetched with
                               | Some s => s
                               | None => "No summary available."
                               end) |})
      end
    end
  end.

Definition generateMarkdown (game_info : GameInfo) : string :=
  ("---" ++ nl ++
   "title: " ++ dq ++ title game_info ++ dq ++ nl ++
   "rating:" ++ nl ++
   "release_date: " ++ dq ++ interpolate (release_date game_info) ++ dq ++ nl ++
   "tags:" ++ nl ++
   "    - game" ++ nl ++
   "    " ++ Vault.tag_lines (fun genre => genre) (genres game_info) ++ nl ++
   "    " ++ Vault.tag_lines (fun theme => theme) (themes game_info) ++ nl ++
   "    - wishlist" ++ nl ++
   "cover: " ++ dq ++ "[[" ++ slug game_info ++ ".jpg]]" ++ dq ++ nl ++
   "---" ++ nl ++
   "> [!NOTE] Summary" ++ nl ++
   Vault.quote_summary (summary game_info))%string.

Definition main (w : World) (response : option Game) (confirm : bool)
  : list Vault.Action :=
  match fetchGameById (fst (getToken w)) response confirm with
  | (actions, Vault.Got gameInfo) =>
    let markdown_content := generateMarkdown gameInfo in
    actions ++ createMarkdownFile markdown_content (slug gameInfo ++ ".md")%string
  | (actions, _) => actions
  end.

End Fetch.

End Games.


(* ================================================================== *)
(** * The Google Books script *)
(* ================================================================== *)

Module Books.
Import JS.

Definition BOOK_COVERS_PATH : string := "../Attachments/book_covers".
Definition BOOK_PATH : string := "../Library/Books".

Record BookInfo : Type := {
  title : string;
  slug : string;
  year : option string;
  categories : option (list string);
  summary : option string
}.

(** What the script reads of [response.data.items[0].volumeInfo]. *)
Record ImageLinks : Type := {
  extraLarge : option string;
  large : option string;
  medium : option string;
  thumbnail : option string;
  smallThumbnail : option string
}.

Record VolumeInfo : Type := {
  v_title : string;
  v_publishedDate : option string;
  v_categories : option (list string);
  v_description : option string;
  v_imageLinks : option ImageLinks
}.

(** Get year from published date. *)
Definition getYear (publishedDate : option string) : string :=
  if negb (nonempty publishedDate) then EmptyString
  else slice0 4 (interpolate publishedDate).

(** Get cover url from image links object. *)
Definition getCoverUrl (imageLinks : option ImageLinks) : option string :=
  match imageLinks with
  | None => Some EmptyString
  | Some links =>
    or_else (extraLarge links)
      (or_else (large links)
         (or_else (medium links)
            (or_else (thumbnail links) (smallThumbnail links))))
  end.

(** Download book cover. *)
Definition downloadImage (url filename : string) : list Vault.Action :=
  [Vault.Download url BOOK_COVERS_PATH filename].

(** Create markdown file. *)
Definition createMarkdownFile (content filename : string) : list Vault.Action :=
  [Vault.WriteMarkdown BOOK_PATH filename content].

(** Fetch book data from Google Books API by ISBN. *)
Definition fetchBookByIsbn (response : option VolumeInfo) (confirm : bool)
  : list Vault.Action * Vault.fetched BookInfo :=
  match response with
  | None => ([], Vault.Null)
  | Some book_fetched =>
    if negb confirm then ([Vault.Exit 0], Vault.Exited) else
    let book_info :=
      {| title := v_title book_fetched;
         slug := slugify (v_title book_fetched);
         year := Some (getYear (v_publishedDate book_fetched));
         categories := Some (match v_categories book_fetched with Some l => l | None => [] end);
         summary := Some (match v_description book_fetched with
                          | Some s => s
                          | None => "No summary available"
                          end) |} in
    let cover_url := getCoverUrl (v_imageLinks book_fetched) in
    ((if nonempty cover_url
      then downloadImage (interpolate cover_url) (slug book_info ++ ".jpg")%string
      else []),
     Vault.Got book_info)
  end.

(** Generate markdown file. *)
Definition generateMarkdown (book_info : BookInfo) : string :=
  ("---" ++ nl ++
   "title: " ++ dq ++ title book_info ++ dq ++ nl ++
   "rating:" ++ nl ++
   "year: " ++ dq ++ interpolate (year book_info) ++ dq ++ nl ++
   "tags:" ++ nl ++
   "    - book" ++ nl ++
   "    " ++ Vault.tag_lines slugify (categories book_info) ++ nl ++
   "    - wishlist" ++ nl ++
   "cover: " ++ dq ++ "[[" ++ slug book_info ++ ".jpg]]" ++ dq ++ nl ++
   "---" ++ nl ++
   "> [!NOTE] Summary" ++ nl ++
   Vault.quote_summary (summary book_info))%string.

Definition main (response : option VolumeInfo) (confirm : bool) : list Vault.Action :=
  match fetchBookByIsbn response confirm with
  | (actions, Vault.Got bookInfo) =>
    let markdown_content := generateMarkdown bookInfo in
    actions ++ createMarkdownFile markdown_content (slug bookInfo ++ ".md")%string
  | (actions, _) => actions
  end.

End Books.

(* ================================================================== *)
(** * The RanobeDB script *)
(* ================================================================== *)

Module LightNovels.
Import JS.

Definition LN_COVERS_PATH : string := "../Attachments/ln_covers".
Definition LN_PATH : string := "../Light_Novels".

Record LightNovelInfo : Type := {
  title : string;
  slug : string;
  year : option string;
  genres : option (list string);
  themes : option (list string);
  summary : option string
}.

(** What the script reads of [response.data.series]. *)
Record Tag : Type := { ttype : string; name : string }.

Record Book : Type := {
  book_type : string;
  image : option string;       (* image.filename *)
  sort_order : Z
}.

Record Series : Type := {
  s_title : string;
  s_start_date : option Z;
  s_tags : option (list Tag);
  s_book_description : option (option string);   (* book_description.description *)
  s_books : option (list Book)
}.

(** [l.sort((a, b) => a.sort_order - b.sort_order)], which is stable. *)
Fixpoint insert_book (b : Book) (l : list Book) : list Book :=
  match l with
  | [] => [b]
  | x :: r => if sort_order b <=? sort_order x then b :: l else x :: insert_book b r
  end.

Definition sort_books (l : list Book) : list Book :=
  fold_right insert_book [] l.

(** Get cover url. *)
Definition getCoverUrl (series : Series) : option string :=
  match s_books series with
  | None => None
  | Some books =>
    let main_books :=
      filter (fun b => String.eqb (book_type b) "main"
                         && match image b with Some _ => true | None => false end) books in
    match sort_books main_books with
    | mainBook :: _ =>
      Some ("https://images.ranobedb.org/" ++ interpolate (image mainBook))%string
    | [] => None
    end
  end.

Definition names_of (kind : string) (tags : option (list Tag)) : list string :=
  match tags with
  | Some l => map name (filter (fun tag => String.eqb (ttype tag) kind) l)
  | None => []
  end.

(** Download light novel cover. *)
Definition downloadImage (url filename : string) : list Vault.Action :=
  [Vault.Download url LN_COVERS_PATH filename].

(** Create markdown file. *)
Definition createMarkdownFile (content filename : string) : list Vault.Action :=
  [Vault.WriteMarkdown LN_PATH filename content].

Definition fetchLightNovelById (response : option Series) (confirm : bool)
  : list Vault.Action * Vault.fetched LightNovelInfo :=
  match response with
  | None => ([], Vault.Null)
  | Some series =>
    if negb confirm then ([Vault.Exit 0], Vault.Exited) else
    match s_start_date series, s_book_description series with
    | Some start_date, Some description =>
      let startDateStr := decimal start_date in
      let ln_info :=
        {| title := s_title series;
           slug := slugify (s_title series);
           year := Some (if start_date =? 0 then EmptyString else slice0 4 startDateStr);
           genres := Some (names_of "genre" (s_tags series));
           themes := Some (names_of "tag" (s_tags series));
           summary := Some (match description with Some s => s | None => EmptyString end) |} in
      ((match getCoverUrl series with
        | Some cover_url => downloadImage cover_url (slug ln_info ++ ".jpg")%string
        | None => []
        end),
       Vault.Got ln_info)
    | _, _ => ([], Vault.Null)
    end
  end.

(** Generate markdown file. *)
Definition generateMarkdown (ln_info : LightNovelInfo) : string :=
  ("---" ++ nl ++
   "title: " ++ dq ++ title ln_info ++ dq ++ nl ++
   "rating:" ++ nl ++
   "year: " ++ dq ++ interpolate (year ln_info) ++ dq ++ nl ++
   "tags:" ++ nl ++
   "    - lightnovel" ++ nl ++
   "    " ++ Vault.tag_lines slugify (genres ln_info) ++ nl ++
   "    " ++ Vault.tag_lines slugify (themes ln_info) ++ nl ++
   "    - wishlist" ++ nl ++
   "cover: " ++ dq ++ "[[" ++ slug ln_info ++ ".jpg]]" ++ dq ++ nl ++
   "---" ++ nl ++
   "> [!NOTE] Summary" ++ nl ++
   Vault.quote_summary (summary ln_info))%string.

(** The [validate] function of the prompt for the RanobeDB ID. *)
Definition validate (value : string) : Vault.validation :=
  if Vault.not_a_positive_integer value
  then Vault.Invalid "RanobeDB ID must be a positive integer"
  else Vault.Valid.

Definition main (response : option Series) (confirm : bool) : list Vault.Action :=
  match fetchLightNovelById response confirm with
  | (actions, Vault.Got ln_info) =>
    let markdown_content := generateMarkdown ln_info in
    actions ++ createMarkdownFile markdown_content (slug ln_info ++ ".md")%string
  | (actions, _) => actions
  end.

End LightNovels.

(* ================================================================== *)
(** * The TMDB script *)
(* ================================================================== *)

Module Media.
Import JS.

Definition MOVIE_COVERS_PATH : string := "../Attachments/movie_covers".
Definition MOVIE_PATH : string := "../Library/Movies".
Definition SERIE_COVERS_PATH : string := "../Attachments/serie_covers".
Definition SERIE_PATH : string := "../Library/Series".
Definition ANIME_COVERS_PATH : string := "../Attachments/anime_covers".
Definition ANIME_PATH : string := "../Library/Animes".

(** Movie, serie and anime data. *)
Record MediaInfo : Type := {
  title : string;
  slug : string;
  release_date : option string;
  genres : option (list string);
  summary : option string
}.

(** What the script reads of [response.data]: [title] and [release_date]
    of a movie, [name] and [first_air_date] of a serie. *)
Record Fetched : Type := {
  f_title : string;
  f_date : option string;
  f_genres : option (list string);     (* genres.name *)
  f_overview : option string;
  f_poster_path : option string
}.

Definition info_of (fetched : Fetched) : MediaInfo :=
  {| title := f_title fetched;
     slug := slugify (f_title fetched);
     release_date := Some (match f_date fetched with Some d => d | None => EmptyString end);
     genres := Some (match f_genres fetched with Some l => l | None => [] end);
     summary := Some (match f_overview fetched with
                      | Some s => s
                      | None => "No summary available"
                      end) |}.

Definition poster (fetched : Fetched) : string :=
  if nonempty (f_poster_path fetched)
  then ("https://image.tmdb.org/t/p/original" ++ interpolate (f_poster_path fetched))%string
  else EmptyString.

(** Download image. *)
Definition downloadImage (url filename media_path : string) : list Vault.Action :=
  [Vault.Download url media_path filename].

(** Create markdown file. *)
Definition createMarkdownFile (content filename media_path : string)
  : list Vault.Action :=
  [Vault.WriteMarkdown media_path filename content].

(** Fetch movie data from TMDB API by ID. *)
Definition fetchMovieById (response : option Fetched) (confirm : bool)
  : list Vault.Action * Vault.fetched MediaInfo :=
  match response with
  | None => ([], Vault.Null)
  | Some movie_fetched =>
    if negb confirm then ([Vault.Exit 0], Vault.Exited) else
    let movie_info := info_of movie_fetched in
    let cover_url := poster movie_fetched in
    ((if nonempty (Some cover_url)
      then downloadImage cover_url (slug movie_info ++ ".jpg")%string MOVIE_COVERS_PATH
      else []),
     Vault.Got movie_info)
  end.

(** Fetch serie data from TMDB API by ID. *)
Definition fetchSerieById (media_type : Z) (response : option Fetched) (confirm : bool)
  : list Vault.Action * Vault.fetched MediaInfo :=
  match response with
  | None => ([], Vault.Null)
  | Some serie_fetched =>
    if negb confirm then ([Vault.Exit 0], Vault.Exited) else
    let serie_info := info_of serie_fetched in
    let cover_url := poster serie_fetched in
    ((if nonempty (Some cover_url)
      then downloadImage cover_url (slug serie_info ++ ".jpg")%string
             (if media_type =? 3 then ANIME_COVERS_PATH else SERIE_COVERS_PATH)
      else []),
     Vault.Got serie_info)
  end.

(** Generate markdown file. *)
Definition generateMarkdown (media_info : MediaInfo) (media : string) : string :=
  ("---" ++ nl ++
   "title: " ++ dq ++ title media_info ++ dq ++ nl ++
   "rating:" ++ nl ++
   "release_date: " ++ dq ++ interpolate (release_date media_info) ++ dq ++ nl ++
   "tags:" ++ nl ++
   "    - " ++ media ++ nl ++
   "    " ++ Vault.tag_lines slugify (genres media_info) ++ nl ++
   "    - watchlist" ++ nl ++
   "cover: " ++ dq ++ "[[" ++ slug media_info ++ ".jpg]]" ++ dq ++ nl ++
   "---" ++ nl ++
   "> [!NOTE] Summary" ++ nl ++
   Vault.quote_summary (summary media_info))%string.

(** The [validate] function of the prompt for the TMDB ID. *)
Definition validate (value : string) : Vault.validation :=
  if Vault.not_a_positive_integer value
  then Vault.Invalid "TMDB ID must be a positive integer"
  else Vault.Valid.

Definition main (media_type : Z) (response : option Fetched) (confirm : bool)
  : list Vault.Action :=
  match (if media_type =? 1 then fetchMovieById response confirm
         else fetchSerieById media_type response confirm) with
  | (actions, Vault.Got mediaInfo) =>
    let markdown_content :=
      generateMarkdown mediaInfo
        (if media_type =? 1 then "movie" else if media_type =? 2 then "serie" else "anime") in
    actions ++ createMarkdownFile markdown_content (slug mediaInfo ++ ".md")%string
                 (if media_type =? 1 then MOVIE_PATH
                  else if media_type =? 2 then SERIE_PATH else ANIME_PATH)
  | (actions, _) => actions
  end.

End Media.

(* ================================================================== *)
(** * The MangaDex script *)
(* ================================================================== *)

Module Manga.
Import JS.

Definition MANGA_COVERS_PATH : string := "../Attachments/manga_covers".
Definition MANGA_PATH : string := "../Manga".

Record MangaInfo : Type := {
  title : string;
  slug : string;
  year : option string;
  genres : option (list string);
  themes : option (list string);
  summary : option string
}.

(** What the script reads of [response.data.data.attributes]. *)
Record Tag : Type := { group : string; name_en : string }.

Record Attributes : Type := {
  title_en : string;
  a_year : option string;
  a_tags : option (list Tag);
  description_en : option string
}.

Definition names_of (kind : string) (tags : option (list Tag)) : list string :=
  map name_en
    (match tags with
     | Some l => filter (fun tag => String.eqb (group tag) kind) l
     | None => []
     end).

(** Fetch cover data from Mangadex API by ID.  [covers] is the
    [attributes.fileName] of the covers in the answer, when the request
    succeeded. *)
Definition fetchCoverById (id : string) (covers : option (list string)) : option string :=
  match covers with
  | Some (fileName :: _) =>
    Some ("https://uploads.mangadex.org/covers/" ++ id ++ "/" ++ fileName)%string
  | _ => None
  end.

(** Download manga cover. *)
Definition downloadImage (url filename : string) : list Vault.Action :=
  [Vault.Download url MANGA_COVERS_PATH filename].

(** Create markdown file. *)
Definition createMarkdownFile (content filename : string) : list Vault.Action :=
  [Vault.WriteMarkdown MANGA_PATH filename content].

(** Fetch manga data from Mangadex API by ID. *)
Definition fetchMangaById (id : string) (response : option Attributes)
    (confirm : bool) (covers : option (list string))
  : list Vault.Action * Vault.fetched MangaInfo :=
  match response with
  | None => ([], Vault.Null)
  | Some attributes =>
    if negb confirm then ([Vault.Exit 0], Vault.Exited) else
    let manga_info :=
      {| title := title_en attributes;
         slug := slugify (title_en attributes);
         year := Some (match a_year attributes with Some y => y | None => EmptyString end);
         genres := Some (names_of "genre" (a_tags attributes));
         themes := Some (names_of "theme" (a_tags attributes));
         summary := Some (match description_en attributes with
                          | Some s => s
                          | None => "No summary available."
                          end) |} in
    ((if nonempty (fetchCoverById id covers)
      then downloadImage (interpolate (fetchCoverById id covers))
             (slug manga_info ++ ".jpg")%string
      else []),
     Vault.Got manga_info)
  end.

(** Generate markdown file. *)
Definition generateMarkdown (manga_info : MangaInfo) (isManga : bool) : string :=
  ("---" ++ nl ++
   "title: " ++ dq ++ title manga_info ++ dq ++ nl ++
   "rating:" ++ nl ++
   "year: " ++ dq ++ interpolate (year manga_info) ++ dq ++ nl ++
   "tags:" ++ nl ++
   "    - " ++ (if isManga then "manga" else "manhwa") ++ nl ++
   "    " ++ Vault.tag_lines slugify (genres manga_info) ++ nl ++
   "    " ++ Vault.tag_lines slugify (themes manga_info) ++ nl ++
   "    - wishlist" ++ nl ++
   "cover: " ++ dq ++ "[[" ++ slug manga_info ++ ".jpg]]" ++ dq ++ nl ++
   "---" ++ nl ++
   "> [!NOTE] Summary" ++ nl ++
   Vault.quote_summary (summary manga_info))%string.

Definition main (id : string) (isManga : bool) (response : option Attributes)
    (confirm : bool) (covers : option (list string)) : list Vault.Action :=
  match fetchMangaById id response confirm covers with
  | (actions, Vault.Got mangaInfo) =>
    let markdown_content := generateMarkdown mangaInfo isManga in
    actions ++ createMarkdownFile markdown_content (slug mangaInfo ++ ".md")%string
  | (actions, _) => actions
  end.

End Manga.

(* ================================================================== *)
(** * Vocabulary of the properties *)
(* ================================================================== *)

Import JS Runtime.

(** The current time in seconds, as the next reading of the clock gives it. *)
Definition now_at (w : World) : Z := seconds (clock w (ticks w)).

(** The token file can be read and holds the document [saved]. *)
Definition persisted (w : World) (saved : json) : Prop :=
  exists f, files w Games.TOKEN_FILE = Some f
            /\ readable f = true /\ content f = Json saved.

(** The outcome that the token endpoint has ready for the next request. *)
Definition next_exchange (w : World) : Exchange := endpoint w (requests (trace w)).

(** A credential exchange fails when no response arrives or when the
    response has a status outside 200..299. *)
Definition failing (x : Exchange) : bool :=
  match x with
  | Http r => negb (validateStatus (status r))
  | Unreachable _ => true
  end.

(** The error that axios raises for a failing exchange: it carries the
    status of the response, or the message of the network failure. *)
Definition upstream_error (x : Exchange) : error :=
  match x with
  | Http r =>
    AxiosError (Some (status r))
      ("Request failed with status code " ++ decimal (status r))
  | Unreachable message => AxiosError None message
  end.

(** The request that [fetchNewToken] sends. *)
Definition token_request (w : World) : Event :=
  Post Games.TOKEN_URL
    [("client_id", env w "CLIENT_ID");
     ("client_secret", env w "CLIENT_SECRET");
     ("grant_type", val (JStr "client_credentials"))].

(** The cache-miss case: what [getToken] does once the check of the cache
    has let it through, from the world [w] in which the exchange starts. *)
Definition cache_miss (w : World) : evaluation jsval * World :=
  run (try_catch Games.refresh Games.on_error) w.

(** The catch clause: the error goes to the console and the call gives
    [null]. *)
Definition gives_up (e : error) (w : World) : evaluation jsval * World :=
  (Value null, log (ConsoleError "Error while fetching or generating token:" e) w).

(** A value that is a token string or [null]. *)
Definition token_or_null (v : jsval) : Prop :=
  v = null \/ exists s, v = val (JStr s).

(** The ways through [getToken]: the saved token is returned, the exchange
    starts at once or after the check, or an error ends the call before or
    after the clock was read. *)
Inductive path (w : World) : Prop :=
| path_hit (members : list (string * json)) :
    persisted w (JObj members) ->
    greater_than (lookup "expires_at" members) (now_at w) = Value true ->
    Games.getToken w = (Value (lookup "access_token" members), tick w) ->
    path w
| path_absent :
    files w Games.TOKEN_FILE = None ->
    Games.getToken w = cache_miss w ->
    path w
| path_expired (saved : json) (expires_at : jsval) :
    persisted w saved ->
    get saved "expires_at" = Value expires_at ->
    greater_than expires_at (now_at w) = Value false ->
    Games.getToken w = cache_miss (tick w) ->
    path w
| path_unread (e : error) :
    Games.getToken w = gives_up e w ->
    path w
| path_unusable (e : error) :
    Games.getToken w = gives_up e (tick w) ->
    path w.

(** ** Slugs *)

(** A lowercase ASCII letter, a digit or a hyphen. *)
Definition slug_character (a : ascii) : bool :=
  let n := N_of_ascii a in
  ((97 <=? n) && (n <=? 122) || (48 <=? n) && (n <=? 57) || (n =? 45))%N.

(** A normalized slug: only slug characters, no hyphen at either end, no
    two hyphens in a row. *)
Record normalized (s : string) : Prop := {
  only_slug_characters :
    Forall (fun a => slug_character a = true) (list_ascii_of_string s);
  no_leading_hyphen : forall r, s <> String "-" r;
  no_trailing_hyphen : forall r, s <> (r ++ "-")%string;
  no_consecutive_hyphens : forall p q, s <> (p ++ "--" ++ q)%string
}.

(** The slug of the record that a fetch function gives, when it gives one. *)
Definition slug_normalized {A : Type} (slug : A -> string)
    (result : list Vault.Action * Vault.fetched A) : Prop :=
  match snd result with
  | Vault.Got info => normalized (slug info)
  | _ => True
  end.

(** No two hyphens in a row, as a check. *)
Fixpoint single_hyphens (s : string) : bool :=
  match s with
  | EmptyString => true
  | String a r =>
    match r with
    | EmptyString => true
    | String b _ => negb (Ascii.eqb a "-" && Ascii.eqb b "-") && single_hyphens r
    end
  end.

Definition starts_with_hyphen (s : string) : bool :=
  match s with
  | String a _ => Ascii.eqb a "-"
  | EmptyString => false
  end.

(** ** The cover link of a note *)

(** The line of the front matter that links the cover image. *)
Definition cover_line (filename : string) : string :=
  ("cover: " ++ dq ++ "[[" ++ filename ++ "]]" ++ dq)%string.

(** The end of a note: the cover line closes the front matter, and the
    quoted summary follows. *)
Definition note_end (filename : string) (summary : option string) : string :=
  (nl ++ cover_line filename ++ nl ++
   "---" ++ nl ++
   "> [!NOTE] Summary" ++ nl ++
   Vault.quote_summary summary)%string.

Definition links_cover (content filename : string) : Prop :=
  exists front summary, content = (front ++ note_end filename summary)%string.

(** Reading the link back from the text of a note: the file named by the
    last line of the form [cover: "[[...]]"]. *)
Fixpoint strip_prefix (p s : string) : option string :=
  match p, s with
  | EmptyString, _ => Some s
  | String a p', String b s' => if Ascii.eqb a b then strip_prefix p' s' else None
  | String _ _, EmptyString => None
  end.

Fixpoint strip_suffix (suffix s : string) : option string :=
  if String.eqb s suffix then Some EmptyString
  else
    match s with
    | EmptyString => None
    | String a r => option_map (String a) (strip_suffix suffix r)
    end.

Definition link_of_line (line : string) : option string :=
  match strip_prefix ("cover: " ++ dq ++ "[[") line with
  | Some rest => strip_suffix ("]]" ++ dq) rest
  | None => None
  end.

Definition cover_link (content : string) : option string :=
  fold_left
    (fun found line =>
       match link_of_line line with
       | Some filename => Some filename
       | None => found
       end)
    (split_lines content) None.

Definition one_line (s : string) : Prop :=
  ~ In "010"%char (list_ascii_of_string s).

(** The actions of a run that made a note are consistent on a slug: the
    note is the last action and goes to [<slug>.md], every download before
    it goes to [<slug>.jpg], and the note links [<slug>.jpg] as its cover.
    When the slug has no line break, the link can be read back from the
    note. *)
Definition linked (actions : list Vault.Action) : Prop :=
  exists slug dir content downloads,
    actions = downloads ++ [Vault.WriteMarkdown dir (slug ++ ".md") content]
    /\ Forall (fun a => exists url d, a = Vault.Download url d (slug ++ ".jpg")) downloads
    /\ links_cover content (slug ++ ".jpg")
    /\ (one_line slug -> cover_link content = Some (slug ++ ".jpg")%string).

(** Every fetched item gets a note that is linked; a run that fetched no
    item writes no note. *)
Definition note_linked {A : Type} (result : list Vault.Action * Vault.fetched A)
    (actions : list Vault.Action) : Prop :=
  match snd result with
  | Vault.Got _ => linked actions
  | _ => forall dir filename content,
           ~ In (Vault.WriteMarkdown dir filename content) actions
  end.

(** ** Sample worlds

    A clock that starts at 1700000000.123 s and advances one second per
    reading, a token file holding [f], and an endpoint that answers every
    request with [x]. *)

Definition sample_world (f : option File) (x : Exchange) : World :=
  {| env := fun key =>
              if String.eqb key "CLIENT_ID" then val (JStr "client")
              else if String.eqb key "CLIENT_SECRET" then val (JStr "secret")
              else undefined;
     files := fun p => if String.eqb p Games.TOKEN_FILE then f else None;
     write_failure := fun _ => None;
     clock := fun n => 1700000000123 + 1000 * Z.of_nat n;
     ticks := 0;
     endpoint := fun _ => x;
     trace := [] |}.

Definition holding (doc : json) : option File :=
  Some {| content := Json doc; readable := true |}.

Definition grant (token : string) (lifetime : Q) : Exchange :=
  Http {| status := 200;
          data := JObj [("access_token", JStr token);
                        ("expires_in", JNum lifetime);
                        ("token_type", JStr "bearer")] |}.

Definition refuse (code : Z) : Exchange :=
  Http {| status := code;
          data := JObj [("status", JNum (inject_Z code));
                        ("message", JStr "invalid client")] |}.

(* ================================================================== *)
(** * Vocabulary of the further properties *)
(* ================================================================== *)

(** ** The token cache over several calls *)

(** The check of the cache lets the call through to the exchange: the token
    file is absent, or holds a record whose [expires_at] the comparison of
    the code does not find greater than the current time. *)
Definition lets_through (w : World) : Prop :=
  files w Games.TOKEN_FILE = None
  \/ exists members,
       persisted w (JObj members)
       /\ greater_than (lookup "expires_at" members) (now_at w) = Value false.

(** The world after [n] calls of [getToken] in a row. *)
Definition after_calls (n : nat) (w : World) : World :=
  Nat.iter n (fun w' => snd (Games.getToken w')) w.

(** A token file that cannot be read, that is no JSON text, or that holds
    the JSON text [null]. *)
Definition corrupt (f : File) : Prop :=
  readable f = false \/ content f = Garbage \/ content f = Json JNull.

(** The exchange that the endpoint has ready succeeds. *)
Definition granted (w : World) (resp : Response) : Prop :=
  next_exchange w = Http resp /\ validateStatus (status resp) = true.

(** ** Notes, line by line *)

(** Reading a quoted block back: every line without its first two
    characters. *)
Definition unquote (block : string) : string :=
  join nl (map (fun line => substring 2 (String.length line) line) (split_lines block)).

(** The lines that a list of tags takes in the front matter: one per tag,
    or one line for an empty or missing list. *)
Definition tag_block (print : string -> string) (tags : option (list string))
  : list string :=
  match tags with
  | None => ["    undefined"]
  | Some [] => ["    "]
  | Some l => map (fun t => "    - " ++ print t)%string l
  end.

(** The lines of the quoted summary. *)
Definition summary_block (summary : option string) : list string :=
  match summary with
  | None => ["undefined"]
  | Some s => map (fun line => "> " ++ line)%string (split_lines s)
  end.

(** The lines of the note of a book. *)
Definition book_lines (book_info : Books.BookInfo) : list string :=
  ["---";
   "title: " ++ dq ++ Books.title book_info ++ dq;
   "rating:";
   "year: " ++ dq ++ interpolate (Books.year book_info) ++ dq;
   "tags:";
   "    - book"]%string
  ++ tag_block slugify (Books.categories book_info)
  ++ ["    - wishlist";
      cover_line (Books.slug book_info ++ ".jpg");
      "---";
      "> [!NOTE] Summary"]%string
  ++ summary_block (Books.summary book_info).

(** ** Dates *)

(** A string of ASCII characters, each of which is one byte here and one
    UTF-16 unit in the scripts. *)
Definition ascii_only (s : string) : Prop :=
  Forall (fun a => (N_of_ascii a < 128)%N) (list_ascii_of_string s).

(** The decimal digits of [n] in a field of [width] characters, with zeros
    in front. *)
Fixpoint digits_of (width : nat) (n : Z) : string :=
  match width with
  | O => EmptyString
  | S width' =>
    (digits_of width' (n / 10)
     ++ String (ascii_of_N (48 + Z.to_N (n mod 10))) EmptyString)%string
  end.

(** ** Covers *)

(** The links of a volume that are set and not empty, from the largest
    image to the smallest. *)
Definition usable_links (links : Books.ImageLinks) : list string :=
  flat_map (fun link => if nonempty link then [interpolate link] else [])
    [Books.extraLarge links; Books.large links; Books.medium links;
     Books.thumbnail links; Books.smallThumbnail links].

(** The books of a series that can give the cover: the main books that
    have an image. *)
Definition cover_candidates (books : list LightNovels.Book) : list LightNovels.Book :=
  filter (fun b => String.eqb (LightNovels.book_type b) "main"
                   && match LightNovels.image b with Some _ => true | None => false end)
    books.

(** Where the TMDB script puts the cover and the note, and the tag it gives
    the note, by the media type typed at the prompt. *)
Definition media_shelf (media_type : Z) : string * string * string :=
  if media_type =? 1 then (Media.MOVIE_COVERS_PATH, Media.MOVIE_PATH, "movie")
  else if media_type =? 2 then (Media.SERIE_COVERS_PATH, Media.SERIE_PATH, "serie")
  else if media_type =? 3 then (Media.ANIME_COVERS_PATH, Media.ANIME_PATH, "anime")
  else (Media.SERIE_COVERS_PATH, Media.ANIME_PATH, "anime").

(** ** Prompts *)

(** A string of ASCII digits. *)
Definition all_digits (s : string) : bool :=
  forallb (fun a => (48 <=? N_of_ascii a)%N && (N_of_ascii a <=? 57)%N)
    (list_ascii_of_string s).

(** Bytes that are ASCII digits. *)
Definition digit_bytes (l : list N) : Prop :=
  Forall (fun a => ((48 <=? a) && (a <=? 57))%N = true) l.

(** A string with a character other than [0]. *)
Definition some_nonzero (s : string) : bool :=
  existsb (fun a => negb (Ascii.eqb a "0")) (list_ascii_of_string s).

(** No action of a run writes to the vault. *)
Definition vault_untouched (actions : list Vault.Action) : Prop :=
  forall a, In a actions -> exists code, a = Vault.Exit code.


(* ================================================================== *)
(** * Properties of the token cache *)
(* ================================================================== *)

Import Games.

Ltac js_step :=
  cbv beta iota delta
    [getToken cache_miss getToken_body run try_catch bind check_cache
     existsSync when readFileSync gives_up now_at].

(** ** The sum [now + expires_in] *)

Lemma Qred_inject_Z (z : Z) : Qred (inject_Z z) = inject_Z z.
Proof.
  unfold Qred, inject_Z.
  pose proof (Z.ggcd_gcd z 1) as G. pose proof (Z.ggcd_correct_divisors z 1) as D.
  cbn [Qnum Qden] in *.
  destruct (Z.ggcd z (Zpos 1)) as (g, (aa, bb)). cbn [fst] in G.
  rewrite Z.gcd_1_r in G. subst g. destruct D as (Da & Db).
  rewrite Z.mul_1_l in Da, Db. now subst aa bb.
Qed.

Lemma Qred_whole (z p : Z) : 0 < p -> Qred ((z * p) # Z.to_pos p) = inject_Z z.
Proof.
  intros P. rewrite <- (Qred_inject_Z z). apply Qred_complete.
  unfold Qeq, inject_Z. cbn [Qnum Qden]. rewrite Z2Pos.id by exact P. lia.
Qed.

Lemma nearest_even_whole (x : Z) : nearest_even x 1 = x.
Proof.
  unfold nearest_even. now rewrite Z.mod_1_r, Z.div_1_r.
Qed.

(** A float holds every integer below [2^53] as it is. *)
Lemma binary64_whole (q : Q) :
  Qden q = 1%positive -> Z.abs (Qnum q) < 2 ^ 53 ->
  binary64 q = Fin (inject_Z (Qnum q)).
Proof.
  intros D B. unfold binary64. rewrite D.
  destruct (Z.eqb_spec (Z.abs (Qnum q)) 0) as [Z0|N0].
  { assert (Qnum q = 0) by lia. now replace (Qnum q) with 0. }
  set (n := Z.abs (Qnum q)) in *.
  assert (P : 0 < n) by lia.
  change (Z.log2 1) with 0. rewrite Z.sub_0_r.
  pose proof (Z.log2_nonneg n) as L0.
  assert (L1 : Z.log2 n < 53) by now apply Z.log2_lt_pow2.
  destruct (Z.leb_spec 0 (Z.log2 n)) as [_|]; [|lia].
  destruct (Z.leb_spec (1 * 2 ^ Z.log2 n) n) as [_|C].
  2: { pose proof (Z.log2_spec n P). lia. }
  rewrite Z.max_l by lia.
  set (e := Z.log2 n - 52) in *.
  assert (S : Z.sgn (Qnum q) * n = Qnum q) by (unfold n; lia).
  destruct (Z.leb_spec 0 e) as [E|E].
  - assert (e = 0) by lia. replace e with 0.
    change (1 * 2 ^ 0) with 1. rewrite nearest_even_whole.
    destruct (Z.eqb_spec n (2 ^ 53)) as [|_]; [lia|].
    cbn [Z.ltb Z.eqb Z.compare orb andb]. unfold scale2. cbn [Z.leb Z.compare].
    do 2 f_equal. change (2 ^ 0) with 1. lia.
  - rewrite nearest_even_whole.
    destruct (Z.ltb_spec 971 e) as [|_]; [lia|].
    destruct (Z.eqb_spec e 971) as [|_]; [lia|].
    cbn [orb andb]. unfold scale2.
    destruct (Z.leb_spec 0 e) as [|_]; [lia|].
    f_equal. rewrite Z.mul_assoc, S. apply Qred_whole.
    apply Z.pow_pos_nonneg; lia.
Qed.

Lemma whole_sum (a b : Z) :
  Z.abs (a + b) < 2 ^ 53 ->
  number_add (Fin (inject_Z a)) (Fin (inject_Z b)) = Fin (inject_Z (a + b)).
Proof.
  intros B. unfold number_add. rewrite binary64_whole.
  - cbn [Qplus inject_Z Qnum Qden]. do 2 f_equal. lia.
  - reflexivity.
  - cbn [Qplus inject_Z Qnum Qden]. now rewrite !Z.mul_1_r.
Qed.

(** ** The exchange *)

Lemma requests_log (t : list Event) (e : Event) :
  requests (t ++ [e]) = (if is_post e then S (requests t) else requests t).
Proof.
  unfold requests. rewrite filter_app, length_app. simpl.
  destruct (is_post e); simpl; lia.
Qed.


(** A granted exchange: the two property reads, the sum and the write
    decide what the call gives. *)
Lemma cache_miss_granted (w : World) (resp : Response) :
  next_exchange w = Http resp ->
  validateStatus (status resp) = true ->
  let w1 := tick (log (token_request w) w) in
  let r := match files w TOKEN_FILE with Some f => readable f | None => true end in
  cache_miss w =
  match get (data resp) "expires_in" with
  | Thrown e => gives_up e w1
  | Value expires_in =>
    match plus (now_at w) expires_in with
    | Thrown e => gives_up e w1
    | Value expires_at =>
      match get (data resp) "access_token" with
      | Thrown e => gives_up e w1
      | Value token =>
        let saved := record token expires_at in
        match write_failure w TOKEN_FILE with
        | None =>
          (Value token,
           log (WriteFile TOKEN_FILE saved)
             (store TOKEN_FILE {| content := saved; readable := r |} w1))
        | Some failure =>
          gives_up (SystemError (errno failure))
            (if truncated failure
             then log (WriteFile TOKEN_FILE Garbage)
                    (store TOKEN_FILE {| content := Garbage; readable := r |} w1)
             else w1)
        end
      end
    end
  end.
Proof.
  intros Hx Hs. unfold next_exchange in Hx.
  unfold cache_miss, run, try_catch, refresh, call, fetchNewToken, try_catch,
    bind, axios_post, writeFileSync, now_at, gives_up.
  simpl. rewrite Hx, Hs. unfold eval, ret, throw, return_. cbv beta iota zeta.
  destruct (get (data resp) "expires_in") as [expires_in|e]; simpl; [|reflexivity].
  destruct (plus _ expires_in) as [expires_at|e]; simpl; [|reflexivity].
  destruct (get (data resp) "access_token") as [token|e]; simpl; [|reflexivity].
  destruct (write_failure w TOKEN_FILE) as [failure|]; simpl; reflexivity.
Qed.

Lemma cache_miss_refused (w : World) :
  failing (next_exchange w) = true ->
  let e := upstream_error (next_exchange w) in
  cache_miss w =
  (Value null,
   log (ConsoleError "Error while fetching or generating token:" e)
     (log (ConsoleError "Error while fetching token:" e)
        (log (token_request w) w))).
Proof.
  unfold next_exchange, failing, upstream_error.
  unfold cache_miss, run, try_catch, refresh, call, fetchNewToken, try_catch,
    bind, axios_post.
  simpl. destruct (endpoint w (requests (trace w))) as [r|m]; simpl; intros H.
  - apply negb_true_iff in H. rewrite H. reflexivity.
  - reflexivity.
Qed.

(** A granted exchange with a string [access_token] and an integer
    [expires_in], where the sum is exact and the token file can be written:
    the record is saved and the token returned. *)
Lemma cache_miss_saved (w : World) (resp : Response) (body : list (string * json))
    (token : string) (n : Z) :
  next_exchange w = Http resp ->
  validateStatus (status resp) = true ->
  data resp = JObj body ->
  lookup "access_token" body = val (JStr token) ->
  lookup "expires_in" body = val (JNum (inject_Z n)) ->
  Z.abs (now_at w + n) < 2 ^ 53 ->
  write_failure w TOKEN_FILE = None ->
  let saved := Json (token_record token (inject_Z (now_at w + n))) in
  cache_miss w =
  (Value (val (JStr token)),
   log (WriteFile TOKEN_FILE saved)
     (store TOKEN_FILE {| content := saved;
                          readable := match files w TOKEN_FILE with
                                      | Some f => readable f
                                      | None => true
                                      end |}
        (tick (log (token_request w) w)))).
Proof.
  intros Hx Hs D A E B W. rewrite (cache_miss_granted w resp Hx Hs), D.
  cbn [get]. rewrite E, A, W. unfold plus. cbn [unconvertible to_number].
  cbv iota. rewrite (whole_sum _ _ B). reflexivity.
Qed.

(** When the call returns the token of such a response, the write went
    through. *)
Lemma cache_miss_returned (w : World) (resp : Response) (v : jsval) :
  next_exchange w = Http resp ->
  validateStatus (status resp) = true ->
  fst (cache_miss w) = Value v -> v <> null ->
  write_failure w TOKEN_FILE = None /\ get (data resp) "access_token" = Value v.
Proof.
  intros Hx Hs R N. rewrite (cache_miss_granted w resp Hx Hs) in R. cbv zeta in R.
  destruct (get (data resp) "expires_in") as [expires_in|e];
    [|injection R as <-; now elim N].
  destruct (plus _ expires_in) as [expires_at|e]; [|injection R as <-; now elim N].
  destruct (get (data resp) "access_token") as [token|e];
    [|injection R as <-; now elim N].
  destruct (write_failure w TOKEN_FILE) as [failure|];
    [injection R as <-; now elim N|].
  injection R as <-. now split.
Qed.

(** ** The paths through [getToken] *)

Lemma getToken_absent (w : World) :
  files w TOKEN_FILE = None -> getToken w = cache_miss w.
Proof.
  intros H. js_step. rewrite H. reflexivity.
Qed.

Lemma getToken_unreadable (w : World) (f : File) :
  files w TOKEN_FILE = Some f -> readable f = false ->
  getToken w = gives_up (SystemError "EACCES") w.
Proof.
  intros H Hr. js_step. repeat (rewrite H; cbv beta iota). rewrite Hr. reflexivity.
Qed.

Lemma getToken_garbage (w : World) (f : File) :
  files w TOKEN_FILE = Some f -> readable f = true -> content f = Garbage ->
  getToken w = gives_up (SyntaxError "Unexpected token in JSON") w.
Proof.
  intros H Hr Hc. js_step. repeat (rewrite H; cbv beta iota). rewrite Hr, Hc. reflexivity.
Qed.

(** With a document in the file, the call is decided by the two property
    reads and the comparison. *)
Lemma getToken_persisted (w : World) (saved : json) :
  persisted w saved ->
  getToken w =
  match get saved "expires_at" with
  | Thrown e => gives_up e (tick w)
  | Value expires_at =>
    match greater_than expires_at (now_at w) with
    | Thrown e => gives_up e (tick w)
    | Value false => cache_miss (tick w)
    | Value true =>
      match get saved "access_token" with
      | Thrown e => gives_up e (tick w)
      | Value token => (Value token, tick w)
      end
    end
  end.
Proof.
  intros (f & H & Hr & Hc). js_step. repeat (rewrite H; cbv beta iota). rewrite Hr, Hc. simpl.
  destruct (get saved "expires_at") as [ea|e]; simpl; [|reflexivity].
  destruct (greater_than ea _) as [[|]|e]; simpl; [|reflexivity|reflexivity].
  destruct (get saved "access_token") as [tok|e]; reflexivity.
Qed.

(** ** The comparison [saved.expires_at > now] on a number *)

Lemma greater_than_number (T : Q) (now : Z) :
  greater_than (val (JNum T)) now = Value (negb (Qle_bool T (inject_Z now))).
Proof. reflexivity. Qed.

Lemma later_true (T : Q) (now : Z) :
  (inject_Z now < T)%Q -> negb (Qle_bool T (inject_Z now)) = true.
Proof.
  intros H. apply negb_true_iff. destruct (Qle_bool T (inject_Z now)) eqn:E; [|reflexivity].
  apply Qle_bool_iff in E. exfalso. apply (Qlt_not_le _ _ H E).
Qed.

Lemma later_false (T : Q) (now : Z) :
  (T <= inject_Z now)%Q -> negb (Qle_bool T (inject_Z now)) = false.
Proof.
  intros H. apply negb_false_iff. now apply Qle_bool_iff.
Qed.

Lemma later_iff (T : Q) (now : Z) :
  negb (Qle_bool T (inject_Z now)) = true <-> (inject_Z now < T)%Q.
Proof.
  split; [|apply later_true].
  intros H. apply negb_true_iff in H. apply Qnot_le_lt. intros L.
  apply Qle_bool_iff in L. congruence.
Qed.

(** ** What the exchange leaves behind *)

Lemma tick_next_exchange (w : World) : next_exchange (tick w) = next_exchange w.
Proof. reflexivity. Qed.

Lemma exchange_decided (x : Exchange) :
  failing x = true \/ exists resp, x = Http resp /\ validateStatus (status resp) = true.
Proof.
  destruct x as [r|m]; simpl; [|now left].
  destruct (validateStatus (status r)) eqn:E; [right; now exists r | now left].
Qed.

Lemma gives_up_requests (e : error) (w : World) :
  requests (trace (snd (gives_up e w))) = requests (trace w).
Proof. unfold gives_up. simpl. now rewrite requests_log. Qed.

Lemma cache_miss_one_request (w : World) :
  requests (trace (snd (cache_miss w))) = S (requests (trace w)).
Proof.
  destruct (exchange_decided (next_exchange w)) as [F|(resp & Hx & Hs)].
  - rewrite (cache_miss_refused w F). simpl. now rewrite !requests_log.
  - rewrite (cache_miss_granted w resp Hx Hs). cbv zeta.
    destruct (get (data resp) "expires_in") as [expires_in|e];
      [|rewrite gives_up_requests; simpl; now rewrite requests_log].
    destruct (plus _ expires_in) as [expires_at|e];
      [|rewrite gives_up_requests; simpl; now rewrite requests_log].
    destruct (get (data resp) "access_token") as [token|e];
      [|rewrite gives_up_requests; simpl; now rewrite requests_log].
    destruct (write_failure w TOKEN_FILE) as [failure|].
    + rewrite gives_up_requests. destruct (truncated failure); simpl;
        now rewrite !requests_log.
    + simpl. now rewrite !requests_log.
Qed.

(** ** Cache hit *)

(** C1.  When the token file holds a record whose [expires_at] is a number
    strictly greater than the current time, [getToken] returns the
    [access_token] of that record at once: the only effect is the reading
    of the clock, so no request is sent to the token endpoint and nothing
    is written or logged. *)
Theorem getToken_cache_hit (w : World) (members : list (string * json)) (T : Q) :
  persisted w (JObj members) ->
  lookup "expires_at" members = val (JNum T) ->
  (inject_Z (now_at w) < T)%Q ->
  getToken w = (Value (lookup "access_token" members), tick w)
  /\ requests (trace (snd (getToken w))) = requests (trace w)
  /\ trace (snd (getToken w)) = trace w.
Proof.
  intros P E L.
  assert (G : getToken w = (Value (lookup "access_token" members), tick w)).
  { rewrite (getToken_persisted w _ P). simpl get. cbv iota.
    rewrite E, greater_than_number, (later_true _ _ L). reflexivity. }
  rewrite G. repeat split.
Qed.

Lemma getToken_cache_hit_witness :
  let w := sample_world (holding (token_record "tok1" (9999999999 # 1)))
             (grant "tok2" (3600 # 1)) in
  getToken w = (Value (val (JStr "tok1")), tick w)
  /\ requests (trace (snd (getToken w))) = requests (trace w)
  /\ trace (snd (getToken w)) = trace w.
Proof.
  intros w.
  apply (getToken_cache_hit w
           [("access_token", JStr "tok1"); ("expires_at", JNum (9999999999 # 1))]
           (9999999999 # 1)).
  - eexists. repeat split; reflexivity.
  - reflexivity.
  - reflexivity.
Defined.

(** ** Cache miss *)




(** ** Every call takes one of the paths *)

Lemma greater_than_undefined (now : Z) : greater_than undefined now = Value false.
Proof. reflexivity. Qed.

Lemma getToken_path (w : World) : path w.
Proof.
  destruct (files w TOKEN_FILE) as [f|] eqn:F.
  2: { apply path_absent; [assumption | now apply getToken_absent]. }
  destruct (readable f) eqn:R.
  2: { eapply path_unread. now apply (getToken_unreadable w f). }
  destruct (content f) as [saved|] eqn:C.
  2: { eapply path_unread. now apply (getToken_garbage w f). }
  assert (P : persisted w saved) by (exists f; auto).
  pose proof (getToken_persisted w saved P) as G.
  destruct saved as [ | b | q | s | items | members ]; simpl in G;
    try (eapply path_unusable; exact G);
    try (eapply path_expired; [exact P | reflexivity | reflexivity | exact G]).
  destruct (greater_than (lookup "expires_at" members) (now_at w)) as [[|]|e] eqn:E.
  - eapply path_hit; eassumption.
  - eapply path_expired; [exact P | reflexivity | exact E | exact G].
  - eapply path_unusable; exact G.
Qed.

(** ** Round trip *)



(** The text that [getToken] writes for a token string and a finite
    expiry is the record of the round trip. *)
Lemma record_token_record (token : string) (T : Q) :
  record (val (JStr token)) (PNum (Fin T)) = JSON_stringify (token_record token T).
Proof. reflexivity. Qed.

(** Writing the record puts the token file in the state that the round
    trip starts from, when the file can be written and was absent or
    readable before. *)
Lemma writeFileSync_persists (w : World) (token : string) (T : Q) :
  (forall f, files w TOKEN_FILE = Some f -> readable f = true) ->
  write_failure w TOKEN_FILE = None ->
  let written :=
    snd (writeFileSync (R := jsval) TOKEN_FILE
           (JSON_stringify (token_record token T)) w) in
  files written TOKEN_FILE
  = Some {| content := JSON_stringify (token_record token T); readable := true |}
  /\ now_at written = now_at w.
Proof.
  intros R W. unfold writeFileSync. rewrite W. simpl. split; [|reflexivity].
  destruct (files w TOKEN_FILE) as [f|] eqn:F; [|reflexivity].
  now rewrite (R f eq_refl).
Qed.

(** ** Malformed expiry *)




(** ** Failing exchange *)

(** C3, as the code has it.  When the exchange of a call fails (no
    response, or a status outside 200..299), [getToken] does not fail: it
    returns [null].  The error of the exchange, which carries the status of
    the response or the message of the network failure, goes to the console
    twice, and the call has sent exactly one request: it does not retry. *)
Theorem getToken_exchange_failure (w : World) :
  failing (next_exchange w) = true ->
  requests (trace (snd (getToken w))) <> requests (trace w) ->
  fst (getToken w) = Value null
  /\ requests (trace (snd (getToken w))) = S (requests (trace w))
  /\ trace (snd (getToken w))
     = trace w ++
       [token_request w;
        ConsoleError "Error while fetching token:" (upstream_error (next_exchange w));
        ConsoleError "Error while fetching or generating token:"
          (upstream_error (next_exchange w))].
Proof.
  intros F Sent.
  destruct (getToken_path w) as [members _ _ G | _ G | saved ea _ _ _ G | e G | e G];
    rewrite G in *.
  - now elim Sent.
  - rewrite (cache_miss_refused w F) in *. simpl.
    rewrite !requests_log, <- !app_assoc. simpl. auto.
  - rewrite (cache_miss_refused (tick w) F) in *. simpl.
    rewrite !requests_log, <- !app_assoc. simpl. auto.
  - rewrite gives_up_requests in Sent. now elim Sent.
  - rewrite gives_up_requests in Sent. now elim Sent.
Qed.

Lemma getToken_exchange_failure_witness :
  let w := sample_world None (Unreachable "ECONNREFUSED") in
  fst (getToken w) = Value null
  /\ requests (trace (snd (getToken w))) = S (requests (trace w))
  /\ trace (snd (getToken w))
     = trace w ++
       [token_request w;
        ConsoleError "Error while fetching token:" (upstream_error (next_exchange w));
        ConsoleError "Error while fetching or generating token:"
          (upstream_error (next_exchange w))].
Proof.
  intros w. apply (getToken_exchange_failure w).
  - reflexivity.
  - vm_compute. discriminate.
Defined.

(** C3 as stated fails.  With no token file and an endpoint that answers
    500, the exchange takes place and fails, and [getToken] raises nothing:
    it returns [null]. *)
Lemma failing_exchange_not_raised :
  let w := sample_world None (refuse 500) in
  failing (next_exchange w) = true
  /\ requests (trace (snd (getToken w))) = 1%nat
  /\ fst (getToken w) = Value null
  /\ ~ (exists e, fst (getToken w) = Thrown e).
Proof.
  cbv zeta. split; [reflexivity|]. split; [reflexivity|]. split; [reflexivity|].
  intros (e & H). vm_compute in H. discriminate.
Qed.

(** ** The token file after a failing exchange *)

(** C5, as the code has it.  When the exchange fails, the token file, and
    every other file, is what it was before the call: the call writes
    nothing.  It raises nothing either: when the exchange took place, it
    returns [null]. *)
Theorem getToken_failure_writes_nothing (w : World) :
  failing (next_exchange w) = true ->
  files (snd (getToken w)) = files w
  /\ (exists added,
        trace (snd (getToken w)) = trace w ++ added
        /\ forallb (fun e => negb (is_write e)) added = true)
  /\ (requests (trace (snd (getToken w))) <> requests (trace w) ->
      fst (getToken w) = Value null).
Proof.
  intros F.
  destruct (getToken_path w) as [members _ _ G | _ G | saved ea _ _ _ G | e G | e G];
    rewrite G.
  - simpl. split; [reflexivity|]. split; [|intros N; now elim N].
    exists []. now rewrite app_nil_r.
  - rewrite (cache_miss_refused w F). simpl. split; [reflexivity|]. split; [|reflexivity].
    eexists. rewrite <- !app_assoc. simpl. split; reflexivity.
  - rewrite (cache_miss_refused (tick w) F). simpl.
    split; [reflexivity|]. split; [|reflexivity].
    eexists. rewrite <- !app_assoc. simpl. split; reflexivity.
  - simpl. split; [reflexivity|]. split; [|reflexivity]. eexists. split; reflexivity.
  - simpl. split; [reflexivity|]. split; [|reflexivity]. eexists. split; reflexivity.
Qed.

Lemma getToken_failure_writes_nothing_witness :
  let w := sample_world (holding (token_record "tok1" (1 # 1))) (refuse 401) in
  files (snd (getToken w)) = files w
  /\ (exists added,
        trace (snd (getToken w)) = trace w ++ added
        /\ forallb (fun e => negb (is_write e)) added = true)
  /\ (requests (trace (snd (getToken w))) <> requests (trace w) ->
      fst (getToken w) = Value null).
Proof.
  intros w. apply (getToken_failure_writes_nothing w). reflexivity.
Defined.

(** C5 as stated fails.  With an expired record in the token file and an
    endpoint that answers 401, the exchange takes place and fails, the file
    stays as it was, and [getToken] raises no error: it returns [null]. *)
Lemma unauthorized_exchange_not_raised :
  let w := sample_world (holding (token_record "tok1" (1 # 1))) (refuse 401) in
  next_exchange w = refuse 401
  /\ requests (trace (snd (getToken w))) = 1%nat
  /\ files (snd (getToken w)) TOKEN_FILE = files w TOKEN_FILE
  /\ fst (getToken w) = Value null
  /\ ~ (exists e, fst (getToken w) = Thrown e).
Proof.
  cbv zeta. split; [reflexivity|]. split; [reflexivity|]. split; [reflexivity|].
  split; [reflexivity|].
  intros (e & H). vm_compute in H. discriminate.
Qed.

(** ** Freshness *)

(** The comparison of the code on the record just saved, in the second in
    which it was saved. *)
Lemma greater_than_sum (now n : Z) :
  greater_than (val (JNum (inject_Z (now + n)))) now = Value (0 <? n).
Proof.
  rewrite greater_than_number. unfold Qle_bool, inject_Z. cbn [Qnum Qden].
  f_equal. destruct (Z.leb_spec ((now + n) * 1) (now * 1)), (Z.ltb_spec 0 n);
    simpl; lia || reflexivity.
Qed.

(** What a granted exchange leaves when the call returns the token of a
    response with a string [access_token] and an integer [expires_in]. *)
Lemma cache_miss_fresh (w : World) (resp : Response) (body : list (string * json))
    (token : string) (n : Z) :
  granted w resp ->
  data resp = JObj body ->
  lookup "access_token" body = val (JStr token) ->
  lookup "expires_in" body = val (JNum (inject_Z n)) ->
  fst (cache_miss w) = Value (val (JStr token)) ->
  ticks (snd (cache_miss w)) = S (ticks w)
  /\ clock (snd (cache_miss w)) = clock w
  /\ (Z.abs (now_at w + n) < 2 ^ 53 ->
      files (snd (cache_miss w)) TOKEN_FILE
      = Some {| content := Json (token_record token (inject_Z (now_at w + n)));
                readable := match files w TOKEN_FILE with
                            | Some f => readable f
                            | None => true
                            end |}).
Proof.
  intros (Hx & Hs) D At Ei R.
  destruct (cache_miss_returned w resp _ Hx Hs R) as (W & _); [discriminate|].
  split; [|split].
  - rewrite (cache_miss_granted w resp Hx Hs), D. cbn [get]. rewrite Ei, At, W.
    unfold plus. cbn [unconvertible to_number]. reflexivity.
  - rewrite (cache_miss_granted w resp Hx Hs), D. cbn [get]. rewrite Ei, At, W.
    unfold plus. cbn [unconvertible to_number]. reflexivity.
  - intros B. rewrite (cache_miss_saved w resp body token n Hx Hs D At Ei B W).
    reflexivity.
Qed.

(** C4, as the code has it.  Every call ends in one of three ways.  A token
    taken from the cache belongs to a record that the comparison of the
    code finds valid at the time of the call: its [expires_at], when a
    number, is strictly greater than the current time, so no read treats an
    expired record as valid.  Or the call makes the exchange; when it then
    returns the token of a response that has a string [access_token] and an
    integer [expires_in], the record just saved has
    [expires_at = now + expires_in], which the comparison of the code finds
    valid in that same second exactly when [expires_in] is positive: the
    code does not check it.  Or the call sends no request, gives [null] and
    leaves every file as it was. *)
Theorem getToken_freshness (w : World) :
  (exists members,
     persisted w (JObj members)
     /\ getToken w = (Value (lookup "access_token" members), tick w)
     /\ greater_than (lookup "expires_at" members) (now_at w) = Value true
     /\ forall T, lookup "expires_at" members = val (JNum T) ->
                  (inject_Z (now_at w) < T)%Q)
  \/ (requests (trace (snd (getToken w))) = S (requests (trace w))
      /\ forall resp body token n,
           granted w resp ->
           data resp = JObj body ->
           lookup "access_token" body = val (JStr token) ->
           lookup "expires_in" body = val (JNum (inject_Z n)) ->
           fst (getToken w) = Value (val (JStr token)) ->
           exists k,
             ticks (snd (getToken w)) = S k
             /\ let now := clock w k / 1000 in
                (Z.abs (now + n) < 2 ^ 53 ->
                 files (snd (getToken w)) TOKEN_FILE
                 = Some {| content :=
                             Json (JObj [("access_token", JStr token);
                                         ("expires_at", JNum (inject_Z (now + n)))]);
                           readable := true |}
                 /\ greater_than (val (JNum (inject_Z (now + n)))) now
                    = Value (0 <? n)))
  \/ (fst (getToken w) = Value null
      /\ files (snd (getToken w)) = files w
      /\ requests (trace (snd (getToken w))) = requests (trace w)).
Proof.
  destruct (getToken_path w) as [members P V G | A G | saved ea P _ _ G | e G | e G].
  - left. exists members. repeat split; try assumption.
    intros T E. rewrite E, greater_than_number in V.
    injection V as V. now apply later_iff.
  - right; left. rewrite G. split; [apply cache_miss_one_request|].
    intros resp body token n Gr D At Ei R.
    destruct (cache_miss_fresh w resp body token n Gr D At Ei R) as (T & _ & F).
    exists (ticks w). split; [exact T|]. cbv zeta. intros B.
    split; [|apply greater_than_sum]. rewrite (F B), A. reflexivity.
  - right; left. rewrite G. split; [apply (cache_miss_one_request (tick w))|].
    intros resp body token n Gr D At Ei R.
    destruct (cache_miss_fresh (tick w) resp body token n Gr D At Ei R)
      as (T & _ & F).
    exists (S (ticks w)). split; [exact T|]. cbv zeta. intros B.
    split; [|apply greater_than_sum]. rewrite (F B).
    destruct P as (f & Hf & Hr & _). cbn [files tick]. rewrite Hf, Hr. reflexivity.
  - right; right. rewrite G. repeat split. apply gives_up_requests.
  - right; right. rewrite G. repeat split. apply (gives_up_requests e (tick w)).
Qed.

(** C4 as stated fails.  With no token file and an endpoint that grants a
    token with [expires_in = 0], [getToken] returns the token with a record
    whose [expires_at] is the current time, not a later one: the comparison
    of the code finds the record expired in the second in which it was
    saved. *)
Lemma fresh_token_already_expired :
  let w := sample_world None (grant "tok2" 0) in
  let now := clock w 0 / 1000 in
  fst (getToken w) = Value (val (JStr "tok2"))
  /\ files (snd (getToken w)) TOKEN_FILE
     = holding (JObj [("access_token", JStr "tok2");
                      ("expires_at", JNum (inject_Z now))])
  /\ ~ (inject_Z now < inject_Z now)%Q
  /\ greater_than (val (JNum (inject_Z now))) now = Value false.
Proof.
  cbv zeta. split; [reflexivity|]. split; [reflexivity|]. split; [|reflexivity].
  vm_compute. discriminate.
Qed.

(** ** No exception leaves [getToken] *)

Lemma cache_miss_value (w : World) :
  exists v,
    fst (cache_miss w) = Value v
    /\ (v = null
        \/ exists resp,
             granted w resp /\ get (data resp) "access_token" = Value v).
Proof.
  destruct (exchange_decided (next_exchange w)) as [F|(resp & Hx & Hs)].
  - rewrite (cache_miss_refused w F). eexists. split; [reflexivity|]. now left.
  - rewrite (cache_miss_granted w resp Hx Hs). cbv zeta.
    destruct (get (data resp) "expires_in") as [expires_in|e];
      [|eexists; split; [reflexivity|now left]].
    destruct (plus _ expires_in) as [expires_at|e];
      [|eexists; split; [reflexivity|now left]].
    destruct (get (data resp) "access_token") as [token|e] eqn:A;
      [|eexists; split; [reflexivity|now left]].
    destruct (write_failure w TOKEN_FILE) as [failure|];
      [eexists; split; [reflexivity|now left]|].
    exists token. split; [reflexivity|]. right. exists resp. now repeat split.
Qed.

(** C8, as the code has it.  [getToken] returns a value in every world and
    propagates no exception: an error thrown anywhere in the body is caught,
    sent to the console, and turned into [null].  The value returned is
    [null], or the [access_token] member of the saved record as it is found
    there, or the [access_token] member of the body of a granted response
    as it is found there: [undefined] when the record or the body has
    none. *)
Theorem getToken_never_throws (w : World) :
  (exists v,
     fst (getToken w) = Value v
     /\ (v = null
         \/ (exists members,
               persisted w (JObj members) /\ v = lookup "access_token" members)
         \/ (exists resp,
               granted w resp /\ get (data resp) "access_token" = Value v)))
  /\ (forall e w',
        bind check_cache (fun _ => refresh) w = (Throw e, w') ->
        getToken w = gives_up e w').
Proof.
  split.
  - destruct (getToken_path w) as [members P _ G | _ G | saved ea _ _ _ G | e G | e G];
      rewrite G.
    + eexists. split; [reflexivity|]. right; left. now exists members.
    + destruct (cache_miss_value w) as (v & E & [N|R]); exists v; auto.
    + destruct (cache_miss_value (tick w)) as (v & E & [N|R]); exists v; auto.
    + eexists. split; [reflexivity|]. now left.
    + eexists. split; [reflexivity|]. now left.
  - intros e w' H. unfold getToken, getToken_body, run, try_catch.
    rewrite H. reflexivity.
Qed.

(** C8 as stated fails in its first part.  With a token file that holds a
    record with a future [expires_at] and no [access_token], [getToken]
    returns [undefined], which is neither a string nor [null]; it does the
    same when a granted response has a body without [access_token]. *)
Lemma record_without_token_returns_undefined :
  let w := sample_world (holding (JObj [("expires_at", JNum (9999999999 # 1))]))
             (grant "tok2" (3600 # 1)) in
  let w' := sample_world None (Http {| status := 200; data := JObj [] |}) in
  fst (getToken w) = Value undefined
  /\ ~ (exists v, fst (getToken w) = Value v /\ token_or_null v)
  /\ fst (getToken w') = Value undefined
  /\ files (snd (getToken w')) TOKEN_FILE = holding (JObj [("expires_at", JNull)]).
Proof.
  cbv zeta. split; [reflexivity|]. split; [|split; reflexivity].
  intros (v & H & [N|(s & N)]); vm_compute in H; injection H as <-;
    unfold null in N; discriminate N.
Qed.

(* ================================================================== *)
(** * Properties of the slugs *)
(* ================================================================== *)

(** ** Strings *)

Lemma append_nil_r (s : string) : (s ++ EmptyString)%string = s.
Proof. induction s as [|a s IH]; simpl; [reflexivity | now rewrite IH]. Qed.

Lemma append_assoc (s t u : string) : ((s ++ t) ++ u)%string = (s ++ (t ++ u))%string.
Proof. induction s as [|a s IH]; simpl; [reflexivity | now rewrite IH]. Qed.

Lemma chars_append (s t : string) :
  list_ascii_of_string (s ++ t) = list_ascii_of_string s ++ list_ascii_of_string t.
Proof. induction s as [|a s IH]; simpl; [reflexivity | now rewrite IH]. Qed.

(** ** The alphabet *)

Lemma lower_alnum_slug_character (a : ascii) :
  lower_alnum a = true -> slug_character a = true.
Proof.
  unfold lower_alnum, slug_character. intros H. rewrite H. reflexivity.
Qed.

Lemma replace_runs_alphabet (in_run : bool) (s : string) :
  Forall (fun a => slug_character a = true)
    (list_ascii_of_string (replace_runs in_run s)).
Proof.
  revert in_run. induction s as [|a s IH]; intros in_run; simpl; [constructor|].
  destruct (lower_alnum a) eqn:E.
  - simpl. constructor; [now apply lower_alnum_slug_character | apply IH].
  - destruct in_run; [apply IH|]. simpl. constructor; [reflexivity | apply IH].
Qed.

Lemma strip_leading_alphabet (P : ascii -> Prop) (s : string) :
  Forall P (list_ascii_of_string s) ->
  Forall P (list_ascii_of_string (strip_leading_hyphens s)).
Proof.
  induction s as [|a s IH]; simpl; intros H; [assumption|].
  destruct (Ascii.eqb a "-"); [|assumption].
  apply IH. now inversion H.
Qed.

Lemma strip_trailing_alphabet (P : ascii -> Prop) (s : string) :
  Forall P (list_ascii_of_string s) ->
  Forall P (list_ascii_of_string (strip_trailing_hyphens s)).
Proof.
  induction s as [|a s IH]; intros H; [assumption|].
  cbn [strip_trailing_hyphens]. destruct (all_hyphens (String a s)); [constructor|].
  simpl in *. inversion H; subst. constructor; [assumption | now apply IH].
Qed.

(** ** The ends *)

Lemma strip_leading_start (s : string) :
  starts_with_hyphen (strip_leading_hyphens s) = false.
Proof.
  induction s as [|a s IH]; simpl; [reflexivity|].
  destruct (Ascii.eqb a "-") eqn:E; [exact IH | simpl; exact E].
Qed.

Lemma strip_trailing_start (s : string) :
  starts_with_hyphen s = false ->
  starts_with_hyphen (strip_trailing_hyphens s) = false.
Proof.
  destruct s as [|a s]; intros H; [reflexivity|].
  cbn [strip_trailing_hyphens]. destruct (all_hyphens (String a s)); [reflexivity|].
  exact H.
Qed.

Lemma strip_trailing_empty (s : string) :
  strip_trailing_hyphens s = EmptyString -> all_hyphens s = true.
Proof.
  destruct s as [|a s]; [reflexivity|]. cbn [strip_trailing_hyphens].
  destruct (all_hyphens (String a s)); [reflexivity | discriminate].
Qed.

Lemma strip_trailing_end (s r : string) :
  strip_trailing_hyphens s <> (r ++ "-")%string.
Proof.
  revert r. induction s as [|a s IH]; intros r.
  - destruct r; discriminate.
  - cbn [strip_trailing_hyphens]. destruct (all_hyphens (String a s)) eqn:E.
    + destruct r; discriminate.
    + destruct r as [|b r]; simpl; intros H; injection H as Ha Hs.
      * apply strip_trailing_empty in Hs. subst a. simpl in E.
        rewrite Hs in E. discriminate.
      * exact (IH r Hs).
Qed.

(** ** Hyphens in a row *)

Lemma replace_runs_single (in_run : bool) (s : string) :
  single_hyphens (replace_runs in_run s) = true
  /\ (in_run = true -> starts_with_hyphen (replace_runs in_run s) = false).
Proof.
  revert in_run. induction s as [|a s IH]; intros in_run; [now split|].
  cbn [replace_runs]. destruct (lower_alnum a) eqn:E.
  - destruct (IH false) as (S1 & _). split.
    + cbn [single_hyphens]. destruct (replace_runs false s) eqn:R; [reflexivity|].
      rewrite S1, andb_true_r.
      destruct (Ascii.eqb a "-") eqn:Ea; [|reflexivity].
      apply Ascii.eqb_eq in Ea. subst a. discriminate.
    + intros _. simpl. destruct (Ascii.eqb a "-") eqn:Ea; [|reflexivity].
      apply Ascii.eqb_eq in Ea. subst a. discriminate.
  - destruct (IH true) as (S1 & T1). destruct in_run.
    + split; [exact S1 | intros _; now apply T1].
    + split; [|discriminate].
      cbn [single_hyphens]. destruct (replace_runs true s) as [|b t] eqn:R; [reflexivity|].
      rewrite S1, andb_true_r. specialize (T1 eq_refl). simpl in T1. rewrite T1.
      reflexivity.
Qed.

Lemma single_hyphens_tail (a : ascii) (s : string) :
  single_hyphens (String a s) = true -> single_hyphens s = true.
Proof.
  cbn [single_hyphens]. destruct s; [reflexivity|].
  intros H. now apply andb_true_iff in H.
Qed.

Lemma strip_leading_single (s : string) :
  single_hyphens s = true -> single_hyphens (strip_leading_hyphens s) = true.
Proof.
  induction s as [|a s IH]; intros H; [reflexivity|].
  cbn [strip_leading_hyphens]. destruct (Ascii.eqb a "-"); [|exact H].
  apply IH. now apply single_hyphens_tail in H.
Qed.

Lemma strip_trailing_single (s : string) :
  single_hyphens s = true -> single_hyphens (strip_trailing_hyphens s) = true.
Proof.
  induction s as [|a s IH]; intros H; [reflexivity|].
  cbn [strip_trailing_hyphens]. destruct (all_hyphens (String a s)); [reflexivity|].
  pose proof (IH (single_hyphens_tail _ _ H)) as T.
  cbn [single_hyphens]. destruct (strip_trailing_hyphens s) as [|b t] eqn:R; [reflexivity|].
  rewrite T, andb_true_r.
  destruct s as [|c s']; [discriminate R|].
  cbn [strip_trailing_hyphens] in R.
  destruct (all_hyphens (String c s')); [discriminate R|]. injection R as -> _.
  cbn [single_hyphens] in H. now apply andb_true_iff in H.
Qed.

Lemma single_hyphens_sound (s p q : string) :
  single_hyphens s = true -> s <> (p ++ "--" ++ q)%string.
Proof.
  revert s. induction p as [|b p IH]; intros s H E; subst s.
  - simpl in H. discriminate.
  - simpl append in H. apply single_hyphens_tail in H. exact (IH _ H eq_refl).
Qed.

(** ** The slug of a title *)

Lemma slugify_normalized (title : string) : normalized (slugify title).
Proof.
  unfold slugify, strip_hyphens.
  set (replaced := replace_runs false (toLowerCase title)).
  destruct (replace_runs_single false (toLowerCase title)) as (Single & _).
  fold replaced in Single.
  constructor.
  - apply strip_trailing_alphabet, strip_leading_alphabet, replace_runs_alphabet.
  - intros r E.
    pose proof (strip_trailing_start _ (strip_leading_start replaced)) as H.
    rewrite E in H. discriminate.
  - intros r. apply strip_trailing_end.
  - intros p q. apply single_hyphens_sound.
    now apply strip_trailing_single, strip_leading_single.
Qed.

(** C9.  In every script that computes a slug from a title (the books, the
    light novels, the movies, the series and animes, and the manga), the
    slug of the record that the fetch function gives is normalized: it has
    only lowercase ASCII letters, digits and hyphens, no hyphen at its start
    or at its end, and no two hyphens in a row, whatever the title is. *)
Theorem slug_normalization :
  (forall response confirm,
     slug_normalized Books.slug (Books.fetchBookByIsbn response confirm))
  /\ (forall response confirm,
        slug_normalized LightNovels.slug
          (LightNovels.fetchLightNovelById response confirm))
  /\ (forall response confirm,
        slug_normalized Media.slug (Media.fetchMovieById response confirm))
  /\ (forall media_type response confirm,
        slug_normalized Media.slug
          (Media.fetchSerieById media_type response confirm))
  /\ (forall id response confirm covers,
        slug_normalized Manga.slug
          (Manga.fetchMangaById id response confirm covers)).
Proof.
  unfold slug_normalized.
  repeat split; intros.
  - destruct response as [book|], confirm; simpl; auto using slugify_normalized.
  - destruct response as [series|], confirm; simpl; auto.
    destruct (LightNovels.s_start_date series), (LightNovels.s_book_description series);
      simpl; auto using slugify_normalized.
  - destruct response as [movie|], confirm; simpl; auto using slugify_normalized.
  - destruct response as [serie|], confirm; simpl; auto using slugify_normalized.
  - destruct response as [attributes|], confirm; simpl; auto using slugify_normalized.
Qed.

(* ================================================================== *)
(** * Properties of the notes *)
(* ================================================================== *)

(** ** Lines *)

Lemma one_line_append (s t : string) :
  one_line s -> one_line t -> one_line (s ++ t).
Proof.
  unfold one_line. rewrite chars_append, in_app_iff. tauto.
Qed.

Lemma one_line_tail (a : ascii) (s : string) : one_line (String a s) -> one_line s.
Proof. unfold one_line. simpl. tauto. Qed.

Lemma split_lines_nonempty (s : string) : split_lines s <> [].
Proof.
  induction s as [|a s IH]; simpl; [discriminate|].
  destruct (Ascii.eqb a "010"); [discriminate|].
  destruct (split_lines s); [contradiction | discriminate].
Qed.

Lemma split_lines_append (s t : string) :
  split_lines (s ++ nl ++ t) = split_lines s ++ split_lines t.
Proof.
  change (nl ++ t)%string with (String "010" t).
  induction s as [|a s IH]; [reflexivity|].
  change (String a s ++ String "010" t)%string with (String a (s ++ String "010" t)).
  cbn [split_lines]. rewrite IH.
  destruct (Ascii.eqb a "010"); [reflexivity|].
  pose proof (split_lines_nonempty s) as N.
  destruct (split_lines s); [contradiction | reflexivity].
Qed.

Lemma split_lines_one_line (s : string) : one_line s -> split_lines s = [s].
Proof.
  induction s as [|a s IH]; intros H; [reflexivity|].
  cbn [split_lines]. destruct (Ascii.eqb a "010") eqn:E.
  - apply Ascii.eqb_eq in E. subst a. elim H. now left.
  - now rewrite (IH (one_line_tail _ _ H)).
Qed.

Lemma split_lines_are_lines (s : string) : Forall one_line (split_lines s).
Proof.
  induction s as [|a s IH]; simpl.
  - constructor; [|constructor]. intros [].
  - destruct (Ascii.eqb a "010") eqn:E.
    + constructor; [intros [] | exact IH].
    + destruct (split_lines s) as [|first others].
      * constructor; [|constructor]. intros [H|[]]. subst a. discriminate.
      * inversion IH as [|? ? Hf Ho]; subst. constructor; [|exact Ho].
        intros [H|H]; [subst a; discriminate | exact (Hf H)].
Qed.

Lemma split_lines_join (first : string) (others : list string) :
  Forall one_line (first :: others) ->
  split_lines (join nl (first :: others)) = first :: others.
Proof.
  revert first. induction others as [|second others IH]; intros first H.
  - simpl. apply split_lines_one_line. now inversion H.
  - inversion H as [|? ? Hf Ho]; subst.
    change (join nl (first :: second :: others))
      with (first ++ nl ++ join nl (second :: others))%string.
    now rewrite split_lines_append, (split_lines_one_line first Hf), (IH second Ho).
Qed.

(** ** Reading a link *)

Lemma strip_prefix_append (p s : string) : strip_prefix p (p ++ s) = Some s.
Proof.
  induction p as [|a p IH]; simpl; [now destruct s|].
  now rewrite Ascii.eqb_refl.
Qed.

Lemma length_append (s t : string) :
  String.length (s ++ t) = (String.length s + String.length t)%nat.
Proof. induction s as [|a s IH]; simpl; [reflexivity | now rewrite IH]. Qed.

Lemma append_longer (a : ascii) (s t : string) : (String a s ++ t)%string <> t.
Proof.
  intros E. apply (f_equal String.length) in E.
  simpl in E. rewrite length_append in E. lia.
Qed.

Lemma strip_suffix_unfold (suffix s : string) :
  strip_suffix suffix s =
  if String.eqb s suffix then Some EmptyString
  else match s with
       | EmptyString => None
       | String a r => option_map (String a) (strip_suffix suffix r)
       end.
Proof. destruct s; reflexivity. Qed.

Lemma strip_suffix_append (suffix s : string) :
  strip_suffix suffix (s ++ suffix) = Some s.
Proof.
  induction s as [|a s IH]; rewrite strip_suffix_unfold.
  - simpl append. now rewrite String.eqb_refl.
  - destruct (String.eqb (String a s ++ suffix) suffix) eqn:E.
    + apply String.eqb_eq in E. now apply append_longer in E.
    + cbn [append]. now rewrite IH.
Qed.

Lemma link_of_cover_line (filename : string) :
  link_of_line (cover_line filename) = Some filename.
Proof.
  unfold link_of_line, cover_line.
  rewrite <- !append_assoc, !append_assoc.
  change ("cover: " ++ dq ++ "[[" ++ filename ++ "]]" ++ dq)%string
    with (("cover: " ++ dq ++ "[[") ++ (filename ++ ("]]" ++ dq)))%string.
  now rewrite strip_prefix_append, strip_suffix_append.
Qed.

Lemma link_of_quoted (line : string) : link_of_line ("> " ++ line) = None.
Proof. reflexivity. Qed.

Lemma last_link (before after : list string) (line filename : string) :
  link_of_line line = Some filename ->
  Forall (fun l => link_of_line l = None) after ->
  fold_left
    (fun found l => match link_of_line l with Some f => Some f | None => found end)
    (before ++ line :: after) None
  = Some filename.
Proof.
  intros L A. rewrite fold_left_app. simpl. rewrite L.
  induction A as [|l after Hl _ IH]; simpl; [reflexivity|]. now rewrite Hl.
Qed.

Lemma one_line_cover_line (filename : string) :
  one_line filename -> one_line (cover_line filename).
Proof.
  intros H. unfold cover_line.
  repeat apply one_line_append; try exact H;
    unfold one_line; simpl; intuition discriminate.
Qed.

Lemma quoted_lines_link_nothing (summary : option string) :
  Forall (fun l => link_of_line l = None)
    (split_lines (Vault.quote_summary summary)).
Proof.
  destruct summary as [s|]; [|repeat constructor].
  unfold Vault.quote_summary. simpl interpolate.
  pose proof (split_lines_nonempty s) as N.
  pose proof (split_lines_are_lines s) as L.
  destruct (split_lines s) as [|first others]; [contradiction|].
  cbn [map]. rewrite split_lines_join.
  - change (Forall (fun l => link_of_line l = None)
              (map (fun line => "> " ++ line)%string (first :: others))).
    apply Forall_map, Forall_forall. intros l _. apply link_of_quoted.
  - change (Forall one_line (map (fun line => "> " ++ line)%string (first :: others))).
    apply Forall_map. revert L. apply Forall_impl. intros l Hl.
    apply one_line_append; [|exact Hl]. unfold one_line. simpl. intuition discriminate.
Qed.

(** The link of a note can be read back when the file name has no line
    break. *)
Lemma cover_link_of_note (front filename : string) (summary : option string) :
  one_line filename ->
  cover_link (front ++ note_end filename summary) = Some filename.
Proof.
  intros H. unfold cover_link, note_end.
  rewrite !split_lines_append.
  rewrite (split_lines_one_line _ (one_line_cover_line _ H)).
  apply last_link; [apply link_of_cover_line|].
  simpl. repeat (constructor; [reflexivity|]).
  apply quoted_lines_link_nothing.
Qed.

Lemma slugify_one_line (title : string) : one_line (slugify title).
Proof.
  intros H. destruct (slugify_normalized title) as [A _ _ _].
  rewrite Forall_forall in A. specialize (A _ H). discriminate.
Qed.

Lemma one_line_jpg (slug : string) : one_line slug -> one_line (slug ++ ".jpg").
Proof.
  intros H. apply one_line_append; [exact H|].
  unfold one_line. simpl. intuition discriminate.
Qed.

(** ** The notes of the five scripts *)

Lemma links_cover_prepend (a content filename : string) :
  links_cover content filename -> links_cover (a ++ content) filename.
Proof.
  intros (front & summary & E). exists (a ++ front)%string, summary.
  now rewrite E, append_assoc.
Qed.

(** The last lines that the five templates share. *)
Lemma links_cover_end (slug : string) (summary : option string) :
  links_cover
    (nl ++ "cover: " ++ dq ++ "[[" ++ slug ++ ".jpg]]" ++ dq ++ nl ++
     "---" ++ nl ++
     "> [!NOTE] Summary" ++ nl ++
     Vault.quote_summary summary)
    (slug ++ ".jpg").
Proof.
  exists EmptyString, summary.
  unfold note_end, cover_line. rewrite ?append_assoc. reflexivity.
Qed.

Ltac find_cover :=
  repeat first [apply links_cover_end | apply links_cover_prepend].

Lemma linked_intro (downloads : list Vault.Action) (dir slug content : string) :
  Forall (fun a => exists url d, a = Vault.Download url d (slug ++ ".jpg")) downloads ->
  links_cover content (slug ++ ".jpg") ->
  linked (downloads ++ [Vault.WriteMarkdown dir (slug ++ ".md") content]).
Proof.
  intros D L. exists slug, dir, content, downloads.
  split; [reflexivity|]. split; [exact D|]. split; [exact L|].
  intros O. destruct L as (front & summary & ->).
  apply cover_link_of_note. now apply one_line_jpg.
Qed.

Lemma one_download (b : bool) (url dir slug : string) :
  Forall (fun a => exists u d, a = Vault.Download u d (slug ++ ".jpg"))
    (if b then [Vault.Download url dir (slug ++ ".jpg")%string] else []).
Proof. destruct b; repeat constructor. now exists url, dir. Qed.

Lemma book_note_linked (response : option Books.VolumeInfo) (confirm : bool) :
  note_linked (Books.fetchBookByIsbn response confirm) (Books.main response confirm).
Proof.
  unfold note_linked, Books.main, Books.fetchBookByIsbn,
    Books.downloadImage, Books.createMarkdownFile.
  destruct response as [book|]; [destruct confirm|]; cbn [negb snd];
    try (intros dir filename content H; simpl in H; intuition discriminate).
  apply linked_intro; [apply one_download|].
  unfold Books.generateMarkdown. find_cover.
Qed.

Ltac no_note :=
  let H := fresh in
  intros ? ? ? H; simpl in H; intuition discriminate.

Lemma light_novel_note_linked (response : option LightNovels.Series) (confirm : bool) :
  note_linked (LightNovels.fetchLightNovelById response confirm)
    (LightNovels.main response confirm).
Proof.
  unfold note_linked, LightNovels.main, LightNovels.fetchLightNovelById,
    LightNovels.downloadImage, LightNovels.createMarkdownFile.
  destruct response as [series|]; [destruct confirm|]; cbn [negb snd]; try no_note.
  destruct (LightNovels.s_start_date series), (LightNovels.s_book_description series);
    cbn [snd]; try no_note.
  apply linked_intro.
  - destruct (LightNovels.getCoverUrl series); repeat constructor. now eexists _, _.
  - unfold LightNovels.generateMarkdown. find_cover.
Qed.

Lemma media_note_linked (media_type : Z) (response : option Media.Fetched) (confirm : bool) :
  note_linked
    (if media_type =? 1 then Media.fetchMovieById response confirm
     else Media.fetchSerieById media_type response confirm)
    (Media.main media_type response confirm).
Proof.
  unfold note_linked, Media.main, Media.fetchMovieById, Media.fetchSerieById,
    Media.downloadImage, Media.createMarkdownFile.
  destruct (media_type =? 1);
    (destruct response as [fetched|]; [destruct confirm|]; cbn [negb snd]; try no_note;
     apply linked_intro; [apply one_download | unfold Media.generateMarkdown; find_cover]).
Qed.

Lemma manga_note_linked (id : string) (isManga : bool)
    (response : option Manga.Attributes) (confirm : bool) (covers : option (list string)) :
  note_linked (Manga.fetchMangaById id response confirm covers)
    (Manga.main id isManga response confirm covers).
Proof.
  unfold note_linked, Manga.main, Manga.fetchMangaById,
    Manga.downloadImage, Manga.createMarkdownFile.
  destruct response as [attributes|]; [destruct confirm|]; cbn [negb snd]; try no_note.
  apply linked_intro; [apply one_download | unfold Manga.generateMarkdown; find_cover].
Qed.

Lemma game_note_linked (calendar : Z -> Z * Z * Z) (w : World)
    (response : option Games.Game) (confirm : bool) :
  note_linked (Games.fetchGameById calendar (fst (getToken w)) response confirm)
    (Games.main calendar w response confirm).
Proof.
  unfold note_linked, Games.main, Games.fetchGameById,
    Games.downloadImage, Games.createMarkdownFile.
  destruct (fst (getToken w)) as [token|e]; cbn [snd]; try no_note.
  destruct (truthy token); cbn [negb snd]; try no_note.
  destruct response as [game|]; [destruct confirm|]; cbn [negb snd]; try no_note.
  destruct (Games.g_cover game) as [cover|]; cbn [snd]; try no_note.
  apply linked_intro; [apply one_download | unfold Games.generateMarkdown; find_cover].
Qed.

(** C10.  For every item that a script fetches, the run ends by writing the
    note to [<slug>.md]; every cover image the run downloads goes to
    [<slug>.jpg] with the same slug; and the cover field of the note is
    [[[<slug>.jpg]]]: the front matter of the note ends with that line, and
    the file name can be read back from the note when the slug has no line
    break, which no computed slug has.  A run that fetches no item writes no
    note.  This holds for the books, the light novels, the movies, series
    and animes, the manga and the games. *)
Theorem cover_link_consistency :
  (forall response confirm,
     note_linked (Books.fetchBookByIsbn response confirm)
       (Books.main response confirm))
  /\ (forall response confirm,
        note_linked (LightNovels.fetchLightNovelById response confirm)
          (LightNovels.main response confirm))
  /\ (forall media_type response confirm,
        note_linked
          (if media_type =? 1 then Media.fetchMovieById response confirm
           else Media.fetchSerieById media_type response confirm)
          (Media.main media_type response confirm))
  /\ (forall id isManga response confirm covers,
        note_linked (Manga.fetchMangaById id response confirm covers)
          (Manga.main id isManga response confirm covers))
  /\ (forall calendar w response confirm,
        note_linked (Games.fetchGameById calendar (fst (getToken w)) response confirm)
          (Games.main calendar w response confirm)).
Proof.
  split; [exact book_note_linked|].
  split; [exact light_novel_note_linked|].
  split; [exact media_note_linked|].
  split; [exact manga_note_linked|].
  exact game_note_linked.
Qed.

(** The slug of a fetched book, light novel, movie, serie or manga has no
    line break, so the link of its note can always be read back. *)
Lemma computed_slug_link (title : string) (front : string) (summary : option string) :
  cover_link (front ++ note_end (slugify title ++ ".jpg") summary)
  = Some (slugify title ++ ".jpg")%string.
Proof.
  apply cover_link_of_note, one_line_jpg, slugify_one_line.
Qed.

(* ================================================================== *)
(** * Runs on concrete inputs *)
(* ================================================================== *)

(** A token file with a far future expiry: the saved token, and no request. *)
Example far_future_record :
  let w := sample_world (holding (token_record "tok1" (9999999999 # 1)))
             (grant "tok2" (3600 # 1)) in
  fst (getToken w) = Value (val (JStr "tok1"))
  /\ trace (snd (getToken w)) = [].
Proof. split; reflexivity. Qed.

(** A token file that expired at second 1: one exchange, and the record
    saved with [expires_at = now + 3600], where [now] is the second reading
    of the clock. *)
Example epoch_past_record :
  let w := sample_world (holding (token_record "tok1" (1 # 1)))
             (grant "tok2" (3600 # 1)) in
  fst (getToken w) = Value (val (JStr "tok2"))
  /\ files (snd (getToken w)) TOKEN_FILE
     = holding (token_record "tok2" (1700003601 # 1))
  /\ requests (trace (snd (getToken w))) = 1%nat.
Proof. repeat split; reflexivity. Qed.

(** A token file that cannot be parsed: [null], and no request. *)
Example garbage_file :
  let w := sample_world (Some {| content := Garbage; readable := true |})
             (grant "tok2" (3600 # 1)) in
  getToken w = gives_up (SyntaxError "Unexpected token in JSON") w.
Proof. reflexivity. Qed.

(** A granted response without the members that the code reads: the call
    returns [undefined] and saves a record without a token.  A body that
    is [null] makes the property read throw: [null], and nothing saved. *)
Example malformed_bodies :
  let empty := sample_world None (Http {| status := 200; data := JObj [] |}) in
  let none := sample_world None (Http {| status := 200; data := JNull |}) in
  fst (getToken empty) = Value undefined
  /\ files (snd (getToken empty)) TOKEN_FILE = holding (JObj [("expires_at", JNull)])
  /\ fst (getToken none) = Value null
  /\ files (snd (getToken none)) TOKEN_FILE = None
  /\ requests (trace (snd (getToken none))) = 1%nat.
Proof. repeat split; reflexivity. Qed.

(** An [expires_in] that is a string is appended to the digits of [now];
    one that is a ten-millionth of a second is lost in the sum. *)
Example odd_lifetimes :
  let text := sample_world None
                (Http {| status := 200;
                         data := JObj [("access_token", JStr "t");
                                       ("expires_in", JStr "3600")] |}) in
  let short := sample_world None (grant "t" (1 # 10000000)) in
  files (snd (getToken text)) TOKEN_FILE
  = holding (JObj [("access_token", JStr "t"); ("expires_at", JStr "17000000003600")])
  /\ files (snd (getToken short)) TOKEN_FILE
     = holding (token_record "t" (1700000000 # 1)).
Proof. split; reflexivity. Qed.

(** A token file that cannot be written: the exchange is granted, the call
    gives [null] and the file stays absent. *)
Example unwritable_file :
  let w := sample_world None (grant "tok2" (3600 # 1)) in
  let locked :=
    {| env := env w; files := files w;
       write_failure := fun _ => Some {| errno := "EACCES"; truncated := false |};
       clock := clock w; ticks := ticks w; endpoint := endpoint w;
       trace := trace w |} in
  fst (getToken locked) = Value null
  /\ files (snd (getToken locked)) TOKEN_FILE = None
  /\ requests (trace (snd (getToken locked))) = 1%nat.
Proof. repeat split; reflexivity. Qed.

Example number_texts :
  number_text (1 # 10) = "0.1"
  /\ number_text (inject_Z (10 ^ 21)) = "1e+21"
  /\ number_text (1 # 10000000) = "1e-7"
  /\ number_text (123456 # 1000) = "123.456"
  /\ number_text (1700000001 # 1) = "1700000001"
  /\ number_text (-7 # 2) = "-3.5"
  /\ number_text (9007199254740993 # 1) = "9007199254740992".
Proof. repeat split; vm_compute; reflexivity. Qed.

Example slices :
  slice0 4 "1969-07-15" = "1969"
  /\ slice0 4 "19" = "19"
  /\ slice0 4 (String "097" (String "098" (String "195" (String "169" "d"))))
     = String "097" (String "098" (String "195" (String "169" "d"))).
Proof. repeat split; reflexivity. Qed.

Example number_conversions :
  StringToNumber "9999999999" = Fin (9999999999 # 1)
  /\ StringToNumber "0x1F" = Fin (31 # 1)
  /\ StringToNumber "soon" = NaN
  /\ StringToNumber "12px" = NaN
  /\ StringToNumber "-Infinity" = Infinity true
  /\ ToNumber (val (JArr [JStr "17"])) = Value (Fin (17 # 1))
  /\ ToNumber (val (JArr [JNull; JNull])) = Value NaN
  /\ ToNumber (val (JObj [("a", JNull)])) = Value NaN.
Proof. repeat split; reflexivity. Qed.

Example slugs :
  slugify "The Witcher 3: Wild Hunt" = "the-witcher-3-wild-hunt"
  /\ slugify "  --Dune (Messiah)!" = "dune-messiah"
  /\ slugify "???" = EmptyString.
Proof. repeat split; reflexivity. Qed.

Example book_run :
  let book :=
    {| Books.v_title := "Dune: Messiah";
       Books.v_publishedDate := Some "1969-07-15";
       Books.v_categories := Some ["Science Fiction"];
       Books.v_description := None;
       Books.v_imageLinks :=
         Some {| Books.extraLarge := None; Books.large := None; Books.medium := None;
                 Books.thumbnail := Some "http://books.google.com/c.jpg";
                 Books.smallThumbnail := None |} |} in
  exists content,
    Books.main (Some book) true
    = [Vault.Download "http://books.google.com/c.jpg" Books.BOOK_COVERS_PATH
         "dune-messiah.jpg";
       Vault.WriteMarkdown Books.BOOK_PATH "dune-messiah.md" content]
    /\ cover_link content = Some "dune-messiah.jpg".
Proof. eexists. split; reflexivity. Qed.

(* ================================================================== *)
(** * Further properties of the token cache *)
(* ================================================================== *)

Lemma lets_through_miss (w : World) :
  lets_through w ->
  exists w0, (w0 = w \/ w0 = tick w) /\ getToken w = cache_miss w0
             /\ (forall f, files w TOKEN_FILE = Some f -> readable f = true).
Proof.
  intros [A|(members & P & E)].
  - exists w. split; [now left|]. split; [now apply getToken_absent|].
    intros f F. congruence.
  - exists (tick w). split; [now right|]. split.
    + rewrite (getToken_persisted w _ P). simpl get. cbv iota. now rewrite E.
    + destruct P as (f & F & R & _). intros f' F'. congruence.
Qed.

Lemma refreshed_world (w : World) (resp : Response) (body : list (string * json))
    (token : string) (n : Z) :
  lets_through w -> granted w resp ->
  data resp = JObj body ->
  lookup "access_token" body = val (JStr token) ->
  lookup "expires_in" body = val (JNum (inject_Z n)) ->
  fst (getToken w) = Value (val (JStr token)) ->
  exists k,
    ticks (snd (getToken w)) = S k
    /\ clock (snd (getToken w)) = clock w
    /\ (Z.abs (clock w k / 1000 + n) < 2 ^ 53 ->
        persisted (snd (getToken w))
          (token_record token (inject_Z (clock w k / 1000 + n)))).
Proof.
  intros L Gr D At Ei R.
  destruct (lets_through_miss w L) as (w0 & [->| ->] & G & Re); rewrite G in *.
  - destruct (cache_miss_fresh w resp body token n Gr D At Ei R) as (T & C & F).
    exists (ticks w). split; [exact T|]. split; [exact C|]. intros B.
    eexists. split; [exact (F B)|]. split; [|reflexivity]. simpl.
    destruct (files w TOKEN_FILE) as [f|] eqn:Ff; [|reflexivity]. now apply Re.
  - destruct (cache_miss_fresh (tick w) resp body token n Gr D At Ei R)
      as (T & C & F).
    exists (S (ticks w)). split; [exact T|]. split; [exact C|]. intros B.
    eexists. split; [exact (F B)|]. split; [|reflexivity]. simpl.
    destruct (files w TOKEN_FILE) as [f|] eqn:Ff; [|reflexivity]. now apply Re.
Qed.

(** X1.  Reuse until expiry.  Take a call that went through to the
    exchange and returned the token of a granted response whose body has a
    string [access_token] and an integer [expires_in], with
    [issued + expires_in] below [2^53], where [issued] is the second at
    which the call read the clock before it saved the token.  Then the next
    call returns that same token from the cache, with no request, as long
    as the clock it reads is before [issued + expires_in]; from that time
    on, the next call sends a request again. *)
Theorem getToken_reuse (w : World) (resp : Response) (body : list (string * json))
    (token : string) (n : Z) :
  lets_through w -> granted w resp ->
  data resp = JObj body ->
  lookup "access_token" body = val (JStr token) ->
  lookup "expires_in" body = val (JNum (inject_Z n)) ->
  fst (getToken w) = Value (val (JStr token)) ->
  let w1 := snd (getToken w) in
  let issued := clock w (Nat.pred (ticks w1)) / 1000 in
  Z.abs (issued + n) < 2 ^ 53 ->
  (now_at w1 < issued + n ->
   getToken w1 = (Value (val (JStr token)), tick w1))
  /\ (issued + n <= now_at w1 ->
      requests (trace (snd (getToken w1))) = S (requests (trace w1))).
Proof.
  intros L Gr D At Ei R. cbv zeta.
  destruct (refreshed_world w resp body token n L Gr D At Ei R) as (k & T & _ & P).
  rewrite T. simpl Nat.pred. intros B. specialize (P B).
  pose proof (getToken_persisted _ _ P) as H. simpl in H.
  split; intros C.
  - rewrite H, later_true; [reflexivity|]. rewrite <- Zlt_Qlt. exact C.
  - rewrite H, later_false; [|rewrite <- Zle_Qle; exact C].
    apply (cache_miss_one_request (tick (snd (getToken w)))).
Qed.

Lemma getToken_reuse_witness :
  let w := sample_world None (grant "tok2" (3600 # 1)) in
  let w1 := snd (getToken w) in
  (now_at w1 < 1700000000 + 3600 ->
   getToken w1 = (Value (val (JStr "tok2")), tick w1))
  /\ (1700000000 + 3600 <= now_at w1 ->
      requests (trace (snd (getToken w1))) = S (requests (trace w1))).
Proof.
  intros w.
  apply (getToken_reuse w
           {| status := 200;
              data := JObj [("access_token", JStr "tok2");
                            ("expires_in", JNum (3600 # 1));
                            ("token_type", JStr "bearer")] |}
           [("access_token", JStr "tok2"); ("expires_in", JNum (3600 # 1));
            ("token_type", JStr "bearer")]
           "tok2" 3600).
  - left. reflexivity.
  - split; reflexivity.
  - reflexivity.
  - reflexivity.
  - reflexivity.
  - reflexivity.
  - reflexivity.
Defined.

Lemma gives_up_footprint (e : error) (w0 w : World) :
  w0 = w \/ w0 = tick w ->
  let w' := snd (gives_up e w0) in
  files w' = files w
  /\ (ticks w <= ticks w' <= ticks w + 2)%nat
  /\ trace w' = trace w ++ [ConsoleError "Error while fetching or generating token:" e].
Proof.
  intros [->| ->]; simpl; repeat split; lia.
Qed.

(** X2.  The footprint of a call.  Whatever the world, one call of
    [getToken] changes no file but the token file, reads the clock at most
    twice, sends at most one request and writes at most once.  It writes
    only to the token file and only when the exchange was granted, and the
    token file changes only by such a write. *)
Theorem getToken_footprint (w : World) :
  let w' := snd (getToken w) in
  (forall p, p <> TOKEN_FILE -> files w' p = files w p)
  /\ (ticks w <= ticks w' <= ticks w + 2)%nat
  /\ exists added,
       trace w' = trace w ++ added
       /\ (requests added <= 1)%nat
       /\ (List.length (filter is_write added) <= 1)%nat
       /\ (forall p t, In (WriteFile p t) added ->
             p = TOKEN_FILE /\ exists resp, granted w resp)
       /\ (files w' TOKEN_FILE <> files w TOKEN_FILE ->
           exists t, In (WriteFile TOKEN_FILE t) added).
Proof.
  assert (Miss : forall w0, w0 = w \/ w0 = tick w ->
            let w' := snd (cache_miss w0) in
            (forall p, p <> TOKEN_FILE -> files w' p = files w p)
            /\ (ticks w <= ticks w' <= ticks w + 2)%nat
            /\ exists added,
                 trace w' = trace w ++ added
                 /\ (requests added <= 1)%nat
                 /\ (List.length (filter is_write added) <= 1)%nat
                 /\ (forall p t, In (WriteFile p t) added ->
                       p = TOKEN_FILE /\ exists resp, granted w resp)
                 /\ (files w' TOKEN_FILE <> files w TOKEN_FILE ->
                     exists t, In (WriteFile TOKEN_FILE t) added)).
  { intros w0 W.
    assert (X : next_exchange w0 = next_exchange w) by (destruct W; now subst).
    assert (Tr : trace w0 = trace w) by (destruct W; now subst).
    assert (Fi : files w0 = files w) by (destruct W; now subst).
    assert (Ti : (ticks w <= ticks w0 <= ticks w + 1)%nat)
      by (destruct W; subst; simpl; lia).
    assert (En : env w0 = env w) by (destruct W; now subst).
    destruct (exchange_decided (next_exchange w0)) as [F|(resp & Hx & Hs)].
    - rewrite (cache_miss_refused w0 F). cbn [snd log files ticks trace].
      rewrite Fi, Tr. split; [reflexivity|]. split; [lia|].
      eexists. rewrite <- !app_assoc. split; [reflexivity|]. simpl.
      split; [unfold requests; simpl; lia|]. split; [lia|].
      split; [|intros N; now elim N].
      unfold token_request. intros p t [H|[H|[H|[]]]]; discriminate H.
    - assert (Gr : granted w resp) by (split; [now rewrite <- X | exact Hs]).
      assert (Thrown_ : forall e,
                let w' := snd (gives_up e (tick (log (token_request w0) w0))) in
                (forall p, p <> TOKEN_FILE -> files w' p = files w p)
                /\ (ticks w <= ticks w' <= ticks w + 2)%nat
                /\ exists added,
                     trace w' = trace w ++ added
                     /\ (requests added <= 1)%nat
                     /\ (List.length (filter is_write added) <= 1)%nat
                     /\ (forall p t, In (WriteFile p t) added ->
                           p = TOKEN_FILE /\ exists resp, granted w resp)
                     /\ (files w' TOKEN_FILE <> files w TOKEN_FILE ->
                         exists t, In (WriteFile TOKEN_FILE t) added)).
      { intros e. cbn [snd gives_up log tick files ticks trace].
        rewrite Fi, Tr. split; [reflexivity|]. split; [lia|].
        eexists. rewrite <- !app_assoc. split; [reflexivity|]. simpl.
        split; [unfold requests; simpl; lia|]. split; [lia|].
        split; [|intros N; now elim N].
        unfold token_request. intros p t [H|[H|[]]]; discriminate H. }
      rewrite (cache_miss_granted w0 resp Hx Hs). cbv zeta.
      destruct (get (data resp) "expires_in") as [expires_in|e]; [|apply Thrown_].
      destruct (plus _ expires_in) as [expires_at|e]; [|apply Thrown_].
      destruct (get (data resp) "access_token") as [token|e]; [|apply Thrown_].
      destruct (write_failure w0 TOKEN_FILE) as [failure|].
      + destruct (truncated failure); [|apply Thrown_].
        cbn [snd gives_up log store tick files ticks trace]. rewrite Tr. split.
        * intros p N. apply String.eqb_neq in N. rewrite N. now rewrite Fi.
        * split; [lia|]. eexists. rewrite <- !app_assoc. split; [reflexivity|].
          simpl. split; [unfold requests; simpl; lia|]. split; [lia|]. split.
          -- unfold token_request. intros p t [H|[H|[H|[]]]];
               [discriminate H| |discriminate H].
             injection H as <- _. split; [reflexivity|]. now exists resp.
          -- intros _. eexists. right. left. reflexivity.
      + cbn [snd log store tick files ticks trace]. rewrite Tr. split.
        * intros p N. apply String.eqb_neq in N. rewrite N. now rewrite Fi.
        * split; [lia|]. eexists. rewrite <- !app_assoc. split; [reflexivity|].
          simpl. split; [unfold requests; simpl; lia|]. split; [lia|]. split.
          -- unfold token_request. intros p t [H|[H|[]]]; [discriminate H|].
             injection H as <- _. split; [reflexivity|]. now exists resp.
          -- intros _. eexists. right. left. reflexivity. }
  assert (Quiet : forall e w0, w0 = w \/ w0 = tick w ->
            let w' := snd (gives_up e w0) in
            (forall p, p <> TOKEN_FILE -> files w' p = files w p)
            /\ (ticks w <= ticks w' <= ticks w + 2)%nat
            /\ exists added,
                 trace w' = trace w ++ added
                 /\ (requests added <= 1)%nat
                 /\ (List.length (filter is_write added) <= 1)%nat
                 /\ (forall p t, In (WriteFile p t) added ->
                       p = TOKEN_FILE /\ exists resp, granted w resp)
                 /\ (files w' TOKEN_FILE <> files w TOKEN_FILE ->
                     exists t, In (WriteFile TOKEN_FILE t) added)).
  { intros e w0 W. destruct (gives_up_footprint e w0 w W) as (Fi & Ti & Tr).
    cbv zeta. rewrite Fi, Tr. split; [reflexivity|]. split; [exact Ti|].
    eexists. split; [reflexivity|]. simpl.
    split; [unfold requests; simpl; lia|]. split; [lia|].
    split; [|intros N; now elim N].
    intros p t [H|[]]; discriminate H. }
  destruct (getToken_path w) as [members _ _ G | _ G | saved ea _ _ _ G | e G | e G];
    rewrite G.
  - simpl. split; [reflexivity|]. split; [lia|].
    exists []. rewrite app_nil_r. split; [reflexivity|]. simpl.
    split; [unfold requests; simpl; lia|]. split; [lia|].
    split; [intros p t []|intros N; now elim N].
  - apply Miss. now left.
  - apply Miss. now right.
  - apply Quiet. now left.
  - apply Quiet. now right.
Qed.

Lemma corrupt_gives_up (w : World) (f : File) :
  files w TOKEN_FILE = Some f -> corrupt f ->
  exists e w0, (w0 = w \/ w0 = tick w) /\ getToken w = gives_up e w0.
Proof.
  intros F C. destruct (readable f) eqn:R.
  - destruct C as [C|[C|C]]; [congruence| |].
    + eexists _, w. split; [now left|]. now apply (getToken_garbage w f).
    + eexists _, (tick w). split; [now right|].
      assert (P : persisted w JNull) by (exists f; auto).
      rewrite (getToken_persisted w _ P). reflexivity.
  - eexists _, w. split; [now left|]. now apply (getToken_unreadable w f).
Qed.

(** X3.  A corrupt token file is never repaired.  When the token file
    exists but cannot be read, is no JSON text, or holds the JSON text
    [null], [getToken] returns [null] without sending a request and leaves
    the file as it is; so however many calls were made before, the next one
    returns [null] again, and no request is ever sent. *)
Theorem getToken_corrupt_file (w : World) (f : File) (n : nat) :
  files w TOKEN_FILE = Some f -> corrupt f ->
  fst (getToken (after_calls n w)) = Value null
  /\ files (after_calls n w) = files w
  /\ requests (trace (snd (getToken (after_calls n w)))) = requests (trace w).
Proof.
  intros F C.
  assert (I : files (after_calls n w) = files w
              /\ requests (trace (after_calls n w)) = requests (trace w)).
  { induction n as [|n (IF & IR)]; [now split|].
    change (after_calls (S n) w) with (snd (getToken (after_calls n w))).
    assert (F' : files (after_calls n w) TOKEN_FILE = Some f) by now rewrite IF.
    destruct (corrupt_gives_up _ f F' C) as (e & w0 & W & G). rewrite G.
    destruct (gives_up_footprint e w0 _ W) as (Fi & _ & Tr).
    split; [now rewrite Fi|]. now rewrite Tr, requests_log. }
  destruct I as (IF & IR).
  assert (F' : files (after_calls n w) TOKEN_FILE = Some f) by now rewrite IF.
  destruct (corrupt_gives_up _ f F' C) as (e & w0 & W & G). rewrite G.
  destruct (gives_up_footprint e w0 _ W) as (_ & _ & Tr).
  split; [reflexivity|]. split; [exact IF|]. now rewrite Tr, requests_log.
Qed.

Lemma getToken_corrupt_file_witness :
  let w := sample_world (Some {| content := Garbage; readable := true |})
             (grant "tok2" (3600 # 1)) in
  fst (getToken (after_calls 3 w)) = Value null
  /\ files (after_calls 3 w) = files w
  /\ requests (trace (snd (getToken (after_calls 3 w)))) = requests (trace w).
Proof.
  intros w.
  apply (getToken_corrupt_file w {| content := Garbage; readable := true |} 3).
  - reflexivity.
  - right. left. reflexivity.
Defined.

(** X4.  [fetchNewToken] on its own.  A call sends one request, with
    whatever [process.env] holds for the two credentials, set or not.  It
    returns the body of the response when the exchange is granted.  When
    the exchange fails it writes one line to the console and raises the
    error of axios itself, unchanged.  It reads no clock and touches no
    file. *)
Theorem fetchNewToken_outcome (w : World) :
  let out := run fetchNewToken w in
  files (snd out) = files w
  /\ ticks (snd out) = ticks w
  /\ (forall resp, granted w resp ->
        fst out = Value (data resp)
        /\ trace (snd out) = trace w ++ [token_request w])
  /\ (failing (next_exchange w) = true ->
        fst out = Thrown (upstream_error (next_exchange w))
        /\ trace (snd out)
           = trace w ++ [token_request w;
                         ConsoleError "Error while fetching token:"
                           (upstream_error (next_exchange w))]).
Proof.
  unfold run, fetchNewToken, try_catch, bind, process_env, axios_post,
    granted, failing, upstream_error, next_exchange.
  cbv zeta beta iota.
  destruct (endpoint w (requests (trace w))) as [r|m]; cbn beta iota.
  - destruct (validateStatus (status r)) eqn:V; simpl.
    + split; [reflexivity|]. split; [reflexivity|]. split; [|discriminate].
      intros resp (E & _). injection E as <-. now split.
    + split; [reflexivity|]. split; [reflexivity|]. split.
      * intros resp (E & S). injection E as <-. congruence.
      * intros _. split; [reflexivity|]. now rewrite <- app_assoc.
  - simpl. split; [reflexivity|]. split; [reflexivity|]. split.
    + intros resp (E & _). discriminate E.
    + intros _. split; [reflexivity|]. now rewrite <- app_assoc.
Qed.

(** X5.  No token, no run.  When [getToken] has no token to give (its
    exchange took place and failed, or the token file is corrupt), the run
    of the game script ends with [process.exit(1)]: nothing is downloaded
    and no note is written, whatever IGDB would have answered. *)
Theorem game_run_without_token (calendar : Z -> Z * Z * Z) (w : World)
    (response : option Games.Game) (confirm : bool) :
  (failing (next_exchange w) = true
   /\ requests (trace (snd (getToken w))) <> requests (trace w))
  \/ (exists f, files w TOKEN_FILE = Some f /\ corrupt f) ->
  Games.main calendar w response confirm = [Vault.Exit 1].
Proof.
  intros H.
  assert (N : fst (getToken w) = Value null).
  { destruct H as [(F & Sent)|(f & Ff & C)].
    - destruct (getToken_path w) as [members _ _ G | _ G | saved ea _ _ _ G | e G | e G];
        rewrite G in *.
      + now elim Sent.
      + now rewrite (cache_miss_refused w F).
      + now rewrite (cache_miss_refused (tick w) F).
      + reflexivity.
      + reflexivity.
    - destruct (corrupt_gives_up w f Ff C) as (e & w0 & _ & G). now rewrite G. }
  unfold Games.main, Games.fetchGameById. rewrite N. reflexivity.
Qed.

Lemma game_run_without_token_witness :
  Games.main (fun _ => (2015, 4, 19)) (sample_world None (refuse 401)) None true
  = [Vault.Exit 1].
Proof.
  apply game_run_without_token. left. split; [reflexivity|].
  vm_compute. discriminate.
Defined.

(* ================================================================== *)
(** * Further properties of the slugs *)
(* ================================================================== *)

Lemma slug_character_cases (a : ascii) :
  slug_character a = true -> lower_alnum a = true \/ a = "-"%char.
Proof.
  unfold slug_character, lower_alnum. intros H.
  apply orb_true_iff in H. destruct H as [H|H]; [now left|right].
  apply N.eqb_eq in H. rewrite <- (ascii_N_embedding a), H. reflexivity.
Qed.

Lemma lower_alnum_not_hyphen (a : ascii) :
  lower_alnum a = true -> Ascii.eqb a "-" = false.
Proof.
  intros H. destruct (Ascii.eqb a "-") eqn:E; [|reflexivity].
  apply Ascii.eqb_eq in E. subst a. discriminate H.
Qed.

(** A slug character has no other lowercase form. *)
Lemma toLowerCase_slug_characters (s : string) :
  Forall (fun a => slug_character a = true) (list_ascii_of_string s) ->
  toLowerCase s = s.
Proof.
  induction s as [|a s IH]; intros H; [reflexivity|].
  simpl in H. inversion H as [|? ? Ha Hs]; subst. specialize (IH Hs).
  destruct a as [[] [] [] [] [] [] [] []]; try discriminate Ha;
    cbn [toLowerCase is_upper]; simpl; now rewrite IH.
Qed.

Lemma replace_runs_fixed (in_run : bool) (s : string) :
  Forall (fun a => slug_character a = true) (list_ascii_of_string s) ->
  single_hyphens s = true ->
  (in_run = true -> starts_with_hyphen s = false) ->
  replace_runs in_run s = s.
Proof.
  revert in_run. induction s as [|a s IH]; intros in_run A S T; [reflexivity|].
  simpl in A. inversion A as [|? ? Ha Hs]; subst.
  pose proof (single_hyphens_tail _ _ S) as S'.
  cbn [replace_runs]. destruct (slug_character_cases a Ha) as [L| ->].
  - rewrite L. f_equal. apply IH; [assumption | assumption | discriminate].
  - change (lower_alnum "-") with false. cbv iota.
    destruct in_run; [specialize (T eq_refl); discriminate T|].
    f_equal. apply IH; [assumption | assumption | intros _].
    destruct s as [|b s']; [reflexivity|].
    cbn [single_hyphens] in S. apply andb_true_iff in S. destruct S as (S & _).
    simpl in S. simpl. now destruct (Ascii.eqb b "-").
Qed.

Lemma strip_leading_fixed (s : string) :
  starts_with_hyphen s = false -> strip_leading_hyphens s = s.
Proof.
  destruct s as [|a s]; intros H; [reflexivity|]. simpl in *. now rewrite H.
Qed.

Lemma all_hyphens_end (a : ascii) (s : string) :
  all_hyphens (String a s) = true -> exists r, String a s = (r ++ "-")%string.
Proof.
  revert a. induction s as [|b s IH]; intros a H.
  - simpl in H. rewrite andb_true_r in H. apply Ascii.eqb_eq in H. subst a.
    now exists EmptyString.
  - cbn [all_hyphens] in H. apply andb_true_iff in H. destruct H as (_ & H).
    destruct (IH b H) as (r & E). exists (String a r). simpl. now rewrite E.
Qed.

Lemma strip_trailing_fixed (s : string) :
  (forall r, s <> (r ++ "-")%string) -> strip_trailing_hyphens s = s.
Proof.
  induction s as [|a s IH]; intros H; [reflexivity|].
  cbn [strip_trailing_hyphens]. destruct (all_hyphens (String a s)) eqn:E.
  - destruct (all_hyphens_end a s E) as (r & R). now elim (H r).
  - f_equal. apply IH. intros r R. apply (H (String a r)). simpl. now rewrite R.
Qed.

Lemma single_hyphens_complete (s : string) :
  (forall p q, s <> (p ++ "--" ++ q)%string) -> single_hyphens s = true.
Proof.
  induction s as [|a s IH]; intros H; [reflexivity|].
  cbn [single_hyphens]. destruct s as [|b s']; [reflexivity|].
  apply andb_true_iff. split.
  - apply negb_true_iff. destruct (Ascii.eqb a "-") eqn:Ea; [|reflexivity].
    destruct (Ascii.eqb b "-") eqn:Eb; [|reflexivity].
    apply Ascii.eqb_eq in Ea, Eb. subst a b.
    now elim (H EmptyString s').
  - apply IH. intros p q E. apply (H (String a p) q). simpl. now rewrite E.
Qed.

Lemma normalized_start (s : string) :
  (forall r, s <> String "-" r) -> starts_with_hyphen s = false.
Proof.
  destruct s as [|a s]; intros H; [reflexivity|]. simpl.
  destruct (Ascii.eqb a "-") eqn:E; [|reflexivity].
  apply Ascii.eqb_eq in E. subst a. now elim (H s).
Qed.

(** X6.  The normalized slugs are exactly the strings that the slug
    expression leaves as they are.  So the slug of a slug is the slug
    itself: running a script on a title that is already a slug names the
    same files. *)
Theorem slugify_fixed_points (s : string) :
  normalized s <-> slugify s = s.
Proof.
  split.
  - intros [A L T D]. unfold slugify, strip_hyphens.
    rewrite (toLowerCase_slug_characters s A).
    rewrite (replace_runs_fixed false s A (single_hyphens_complete s D));
      [|discriminate].
    rewrite (strip_leading_fixed s (normalized_start s L)).
    now apply strip_trailing_fixed.
  - intros E. rewrite <- E. apply slugify_normalized.
Qed.

Lemma slugify_idempotent (title : string) :
  slugify (slugify title) = slugify title.
Proof.
  destruct (slugify_normalized title) as [A L T D].
  unfold slugify at 1. unfold strip_hyphens.
  rewrite (toLowerCase_slug_characters _ A).
  rewrite (replace_runs_fixed false _ A (single_hyphens_complete _ D)); [|discriminate].
  rewrite (strip_leading_fixed _ (normalized_start _ L)).
  now apply strip_trailing_fixed.
Qed.

Lemma all_hyphens_chars (s : string) (a : ascii) :
  all_hyphens s = true -> In a (list_ascii_of_string s) -> Ascii.eqb a "-" = true.
Proof.
  induction s as [|b s IH]; simpl; intros H I; [contradiction|].
  apply andb_true_iff in H. destruct H as (Hb & Hs).
  destruct I as [<-|I]; [exact Hb | now apply IH].
Qed.

Lemma replace_runs_no_alnum (in_run : bool) (s : string) :
  Forall (fun a => lower_alnum a = false) (list_ascii_of_string s) ->
  all_hyphens (replace_runs in_run s) = true.
Proof.
  revert in_run. induction s as [|a s IH]; intros in_run H; [reflexivity|].
  simpl in H. inversion H as [|? ? Ha Hs]; subst.
  cbn [replace_runs]. rewrite Ha. destruct in_run; [now apply IH|].
  cbn [all_hyphens]. now rewrite (IH true Hs).
Qed.

Lemma strip_leading_all_hyphens (s : string) :
  all_hyphens s = true -> strip_leading_hyphens s = EmptyString.
Proof.
  induction s as [|a s IH]; simpl; intros H; [reflexivity|].
  apply andb_true_iff in H. destruct H as (Ha & Hs). rewrite Ha. now apply IH.
Qed.

Lemma replace_runs_keeps (in_run : bool) (s : string) (a : ascii) :
  In a (list_ascii_of_string s) -> lower_alnum a = true ->
  In a (list_ascii_of_string (replace_runs in_run s)).
Proof.
  revert in_run. induction s as [|b s IH]; simpl; intros in_run I L; [contradiction|].
  destruct I as [->|I].
  - rewrite L. now left.
  - destruct (lower_alnum b); [right; now apply IH|].
    destruct in_run; [now apply IH | right; now apply IH].
Qed.

Lemma strip_leading_keeps (s : string) (a : ascii) :
  In a (list_ascii_of_string s) -> Ascii.eqb a "-" = false ->
  In a (list_ascii_of_string (strip_leading_hyphens s)).
Proof.
  induction s as [|b s IH]; simpl; intros I N; [contradiction|].
  destruct (Ascii.eqb b "-") eqn:E.
  - destruct I as [->|I]; [congruence | now apply IH].
  - exact I.
Qed.

Lemma strip_trailing_keeps (s : string) (a : ascii) :
  In a (list_ascii_of_string s) -> Ascii.eqb a "-" = false ->
  In a (list_ascii_of_string (strip_trailing_hyphens s)).
Proof.
  induction s as [|b s IH]; intros I N; [contradiction|].
  cbn [strip_trailing_hyphens]. destruct (all_hyphens (String b s)) eqn:E.
  - rewrite (all_hyphens_chars _ a E I) in N. discriminate N.
  - simpl in *. destruct I as [->|I]; [now left | right; now apply IH].
Qed.

(** X7.  The slug of a title is empty exactly when the lowercased title
    has no character in [a-z0-9]: a title written without ASCII letters
    or digits gets the empty slug, so all such titles share the file names
    [.jpg] and [.md]. *)
Theorem slugify_empty (title : string) :
  slugify title = EmptyString
  <-> Forall (fun a => lower_alnum a = false)
        (list_ascii_of_string (toLowerCase title)).
Proof.
  unfold slugify, strip_hyphens. split.
  - intros E.
    destruct (Forall_Exists_dec (fun a => lower_alnum a = false)
                (fun a => bool_dec (lower_alnum a) false)
                (list_ascii_of_string (toLowerCase title))) as [F|X];
      [exact F|exfalso].
    apply Exists_exists in X. destruct X as (a & I & L).
    apply not_false_is_true in L.
    pose proof (lower_alnum_not_hyphen a L) as N.
    pose proof (strip_trailing_keeps _ a
                  (strip_leading_keeps _ a (replace_runs_keeps false _ a I L) N) N) as K.
    rewrite E in K. exact K.
  - intros F.
    now rewrite (strip_leading_all_hyphens _ (replace_runs_no_alnum false _ F)).
Qed.

(* ================================================================== *)
(** * Further properties of the notes *)
(* ================================================================== *)

(** ** Splitting and joining *)

Lemma join_cons (sep first second : string) (others : list string) :
  join sep (first :: second :: others)
  = (first ++ sep ++ join sep (second :: others))%string.
Proof. reflexivity. Qed.

Lemma join_split_lines (s : string) : join nl (split_lines s) = s.
Proof.
  induction s as [|a s IH]; [reflexivity|].
  cbn [split_lines]. pose proof (split_lines_nonempty s) as N.
  destruct (split_lines s) as [|first others]; [contradiction|].
  destruct (Ascii.eqb a "010") eqn:E.
  - apply Ascii.eqb_eq in E. subst a. rewrite join_cons, IH. reflexivity.
  - rewrite <- IH. now destruct others.
Qed.

Lemma substring_whole (n : nat) (s : string) :
  (String.length s <= n)%nat -> substring 0 n s = s.
Proof.
  revert n. induction s as [|a s IH]; intros n H; [now destruct n|].
  destruct n as [|n]; simpl in *; [lia|]. rewrite IH; [reflexivity | lia].
Qed.

Lemma join_app (first second : string) (front back : list string) :
  join nl ((first :: front) ++ second :: back)
  = (join nl (first :: front) ++ nl ++ join nl (second :: back))%string.
Proof.
  revert first. induction front as [|x front IH]; intros first; [reflexivity|].
  change ((first :: x :: front) ++ second :: back)
    with (first :: x :: (front ++ second :: back)).
  rewrite (join_cons nl first x (front ++ second :: back)).
  change (x :: (front ++ second :: back)) with ((x :: front) ++ second :: back).
  rewrite IH, (join_cons nl first x front). now rewrite !append_assoc.
Qed.

(** ** The summary *)

Lemma split_lines_join_all (l : list string) :
  l <> [] -> Forall one_line l -> split_lines (join nl l) = l.
Proof.
  destruct l as [|first others]; [contradiction|].
  intros _. apply split_lines_join.
Qed.

Lemma quoted_lines (s : string) :
  split_lines (Vault.quote_summary (Some s))
  = map (fun line => "> " ++ line)%string (split_lines s).
Proof.
  unfold Vault.quote_summary, interpolate, option_map.
  apply split_lines_join_all.
  - intros E. apply map_eq_nil in E. now apply split_lines_nonempty in E.
  - apply Forall_map. pose proof (split_lines_are_lines s) as L.
    revert L. apply Forall_impl. intros l Hl.
    apply one_line_append; [|exact Hl]. unfold one_line. simpl. intuition discriminate.
Qed.

(** X8.  The summary survives the quoting.  In the note, the summary takes
    as many lines as it has, each behind [> ]; dropping these two
    characters from every line of the block gives the summary back, line
    breaks included. *)
Theorem summary_read_back (s : string) :
  split_lines (Vault.quote_summary (Some s))
  = map (fun line => "> " ++ line)%string (split_lines s)
  /\ unquote (Vault.quote_summary (Some s)) = s.
Proof.
  split; [apply quoted_lines|].
  unfold unquote. rewrite quoted_lines, map_map.
  rewrite <- (join_split_lines s) at 2. f_equal.
  transitivity (map (fun line : string => line) (split_lines s)); [|apply map_id].
  apply map_ext_in. intros line _.
  change (String.length ("> " ++ line)) with (S (S (String.length line))).
  change (substring 2 (S (S (String.length line))) ("> " ++ line))
    with (substring 0 (S (S (String.length line))) line).
  apply substring_whole. lia.
Qed.

(** ** The note of a book, line by line *)

Lemma join_blocks (front back : list string) :
  front <> [] -> back <> [] ->
  join nl (front ++ back) = (join nl front ++ nl ++ join nl back)%string.
Proof.
  destruct front as [|first front]; [contradiction|].
  destruct back as [|second back]; [contradiction|].
  intros _ _. apply join_app.
Qed.

Lemma tag_block_nonempty (print : string -> string) (tags : option (list string)) :
  tag_block print tags <> [].
Proof. destruct tags as [[|t l]|]; discriminate. Qed.

Lemma summary_block_nonempty (summary : option string) : summary_block summary <> [].
Proof.
  destruct summary as [s|]; [|discriminate]. simpl. intros E.
  apply map_eq_nil in E. now apply split_lines_nonempty in E.
Qed.

Lemma tag_block_join (print : string -> string) (tags : option (list string)) :
  ("    " ++ Vault.tag_lines print tags)%string = join nl (tag_block print tags).
Proof.
  destruct tags as [[|t l]|]; [reflexivity| |reflexivity].
  unfold Vault.tag_lines, interpolate, option_map, tag_block.
  revert t. induction l as [|u l IH]; intros t; [reflexivity|].
  cbn [map]. rewrite !join_cons. cbn [map] in IH. rewrite <- IH.
  now rewrite !append_assoc.
Qed.

Lemma summary_block_join (summary : option string) :
  Vault.quote_summary summary = join nl (summary_block summary).
Proof. now destruct summary. Qed.

Lemma book_note_by_lines (book_info : Books.BookInfo) :
  Books.generateMarkdown book_info = join nl (book_lines book_info).
Proof.
  unfold book_lines.
  rewrite join_blocks; [|discriminate|].
  2: { intros E. apply app_eq_nil in E. destruct E as (E & _).
       now apply tag_block_nonempty in E. }
  rewrite join_blocks; [|apply tag_block_nonempty|discriminate].
  rewrite join_blocks; [|discriminate|apply summary_block_nonempty].
  rewrite <- tag_block_join, <- summary_block_join.
  unfold Books.generateMarkdown, cover_line. rewrite !join_cons.
  cbn [join String.concat]. rewrite !append_assoc. reflexivity.
Qed.

Lemma literal_line (s : string) :
  forallb (fun a => negb (Ascii.eqb a "010")) (list_ascii_of_string s) = true ->
  one_line s.
Proof.
  intros H I. rewrite forallb_forall in H. specialize (H _ I). discriminate H.
Qed.

Lemma tag_block_lines (tags : option (list string)) :
  Forall one_line (tag_block slugify tags).
Proof.
  destruct tags as [[|t l]|]; try (repeat constructor; now apply literal_line).
  unfold tag_block. apply Forall_map, Forall_forall. intros c _.
  apply one_line_append; [now apply literal_line | apply slugify_one_line].
Qed.

Lemma summary_block_lines (summary : option string) :
  Forall one_line (summary_block summary).
Proof.
  destruct summary as [s|]; [|repeat constructor; now apply literal_line].
  simpl. apply Forall_map. pose proof (split_lines_are_lines s) as L.
  revert L. apply Forall_impl. intros l Hl.
  apply (one_line_append "> " l); [now apply literal_line | exact Hl].
Qed.

(** X9.  The note of a book, line by line.  When the title, the year and
    the slug of the record have no line break, the note of a book has
    exactly these lines: the six lines of the head with the title and the
    year, one line [    - <tag>] per category with the category turned
    into a slug (one line of four spaces when there is no category), the
    [wishlist] tag, the cover line, the end of the front matter, the
    heading of the summary, and the summary line by line behind [> ]. *)
Theorem book_note_lines (book_info : Books.BookInfo) :
  one_line (Books.title book_info) ->
  one_line (interpolate (Books.year book_info)) ->
  one_line (Books.slug book_info) ->
  split_lines (Books.generateMarkdown book_info) = book_lines book_info.
Proof.
  intros T Y S. rewrite book_note_by_lines. apply split_lines_join_all.
  - discriminate.
  - unfold book_lines.
    apply Forall_app; split; [|apply Forall_app; split; [|apply Forall_app; split]].
    + repeat constructor; try (now apply literal_line);
        repeat apply one_line_append; try assumption; now apply literal_line.
    + apply tag_block_lines.
    + repeat constructor; try (now apply literal_line).
      now apply one_line_cover_line, one_line_jpg.
    + apply summary_block_lines.
Qed.

Lemma book_note_lines_witness :
  let book_info :=
    {| Books.title := "Dune: Messiah";
       Books.slug := "dune-messiah";
       Books.year := Some "1969";
       Books.categories := Some ["Science Fiction"; "Classics"];
       Books.summary := Some ("Twelve years later." ++ nl ++ "Paul rules.")%string |} in
  split_lines (Books.generateMarkdown book_info) = book_lines book_info.
Proof.
  intros book_info. apply (book_note_lines book_info);
    apply literal_line; reflexivity.
Defined.

(* ================================================================== *)
(** * Further properties of the covers *)
(* ================================================================== *)

Lemma substring_split (n : nat) (s : string) :
  exists rest,
    s = (substring 0 n s ++ rest)%string
    /\ String.length (substring 0 n s) = Nat.min n (String.length s).
Proof.
  revert s. induction n as [|n IH]; intros s.
  - exists s. now destruct s.
  - destruct s as [|a s]; [now exists EmptyString|].
    destruct (IH s) as (rest & E & L). exists rest. simpl. split.
    + now rewrite <- E.
    + now rewrite L.
Qed.

(** On ASCII text a UTF-16 unit is a byte. *)
Lemma slice0_ascii (n : nat) (s : string) :
  ascii_only s -> slice0 n s = substring 0 n s.
Proof.
  revert s. induction n as [|n IH]; intros s A; [now destruct s|].
  destruct s as [|a s]; [reflexivity|].
  unfold ascii_only in A. cbn [list_ascii_of_string] in A.
  apply Forall_cons_iff in A. destruct A as (Aa & A).
  cbn [slice0]. unfold char_bytes.
  destruct (N.ltb_spec (N_of_ascii a) 192) as [_|]; [|lia].
  cbn [Nat.eqb]. cbn [String.length Nat.sub substring append].
  rewrite Nat.sub_0_r, (substring_whole _ s (le_n _)). destruct s; simpl;
    now rewrite (IH _ A).
Qed.

(** X10.  The year of a book.  On a published date of ASCII characters,
    [getYear] gives the first four characters of the date, or the whole
    date when it is shorter: the date is the year followed by a rest, and
    the year has four characters or as many as the date has.  A missing
    date gives the empty year. *)
Theorem getYear_prefix (publishedDate : option string) :
  let date := match publishedDate with Some d => d | None => EmptyString end in
  ascii_only date ->
  exists rest,
    date = (Books.getYear publishedDate ++ rest)%string
    /\ String.length (Books.getYear publishedDate) = Nat.min 4 (String.length date).
Proof.
  destruct publishedDate as [[|a d]|]; cbv zeta; intros A.
  - now exists EmptyString.
  - unfold Books.getYear. cbn [nonempty negb interpolate].
    rewrite (slice0_ascii 4 _ A). apply substring_split.
  - now exists EmptyString.
Qed.

Lemma getYear_prefix_witness :
  exists rest,
    "1969-07-15" = (Books.getYear (Some "1969-07-15") ++ rest)%string
    /\ String.length (Books.getYear (Some "1969-07-15")) = 4%nat.
Proof.
  apply (getYear_prefix (Some "1969-07-15")).
  repeat (constructor; [reflexivity|]). constructor.
Defined.

(** X11.  The cover of a book.  A confirmed run downloads the first link
    that is set and not empty among [extraLarge], [large], [medium],
    [thumbnail] and [smallThumbnail], in this order, into the book covers
    under the slug of the title; it downloads nothing when the volume has
    no such link. *)
Theorem book_cover_choice (book_fetched : Books.VolumeInfo) :
  fst (Books.fetchBookByIsbn (Some book_fetched) true)
  = match (match Books.v_imageLinks book_fetched with
           | Some links => usable_links links
           | None => []
           end) with
    | link :: _ =>
      [Vault.Download link Books.BOOK_COVERS_PATH
         (slugify (Books.v_title book_fetched) ++ ".jpg")%string]
    | [] => []
    end.
Proof.
  unfold Books.fetchBookByIsbn, Books.getCoverUrl, usable_links.
  destruct (Books.v_imageLinks book_fetched) as [[xl l m t st]|]; [|reflexivity].
  destruct xl as [[|? ?]|], l as [[|? ?]|], m as [[|? ?]|],
           t as [[|? ?]|], st as [[|? ?]|]; reflexivity.
Qed.

Lemma sort_books_head (l : list LightNovels.Book) :
  match LightNovels.sort_books l with
  | [] => l = []
  | chosen :: _ =>
    exists before after,
      l = before ++ chosen :: after
      /\ (forall b, In b before -> LightNovels.sort_order chosen < LightNovels.sort_order b)
      /\ (forall b, In b after -> LightNovels.sort_order chosen <= LightNovels.sort_order b)
  end.
Proof.
  induction l as [|x l IH]; [reflexivity|].
  unfold LightNovels.sort_books in *. cbn [fold_right].
  destruct (fold_right LightNovels.insert_book [] l) as [|m sorted].
  - subst l. exists [], []. simpl. intuition.
  - destruct IH as (before & after & E & B & A). cbn [LightNovels.insert_book].
    destruct (LightNovels.sort_order x <=? LightNovels.sort_order m) eqn:C.
    + apply Z.leb_le in C. exists [], l. split; [reflexivity|]. split; [intros b []|].
      intros b I. rewrite E in I. apply in_app_iff in I.
      destruct I as [I|[<-|I]]; [specialize (B _ I) | | specialize (A _ I)]; lia.
    + apply Z.leb_gt in C. exists (x :: before), after. rewrite E.
      split; [reflexivity|]. split; [|exact A].
      intros b [<-|I]; [exact C | now apply B].
Qed.

(** X12.  The cover of a light novel.  Among the books of the series that
    are main books and have an image, in the order of the answer,
    [getCoverUrl] takes the first one of the least [sort_order]: every
    candidate before it has a greater [sort_order], none after it has a
    smaller one, and the address is that of its image.  It gives [null]
    only when no book of the series is a main book with an image. *)
Theorem ln_cover_choice (series : LightNovels.Series) :
  let candidates :=
    cover_candidates
      (match LightNovels.s_books series with Some l => l | None => [] end) in
  match LightNovels.getCoverUrl series with
  | Some cover_url =>
    exists before chosen after file,
      candidates = before ++ chosen :: after
      /\ LightNovels.image chosen = Some file
      /\ cover_url = ("https://images.ranobedb.org/" ++ file)%string
      /\ (forall b, In b before -> LightNovels.sort_order chosen < LightNovels.sort_order b)
      /\ (forall b, In b after -> LightNovels.sort_order chosen <= LightNovels.sort_order b)
  | None => candidates = []
  end.
Proof.
  unfold LightNovels.getCoverUrl, cover_candidates.
  destruct (LightNovels.s_books series) as [books|]; [|reflexivity].
  cbv zeta.
  set (candidates := filter _ books).
  pose proof (sort_books_head candidates) as H.
  destruct (LightNovels.sort_books candidates) as [|chosen sorted]; [exact H|].
  destruct H as (before & after & E & B & A).
  assert (I : In chosen candidates) by (rewrite E; apply in_app_iff; right; now left).
  apply filter_In in I. destruct I as (_ & I). apply andb_true_iff in I.
  destruct I as (_ & I). destruct (LightNovels.image chosen) as [file|] eqn:Im; [|discriminate].
  exists before, chosen, after, file. rewrite Im. now repeat split.
Qed.

(** X13.  The shelves of the TMDB script.  A confirmed run on an answer of
    TMDB downloads the poster, when there is one, and writes the note, and
    the media type decides where: 1 is a movie, 2 a serie, 3 an anime.  Any
    other media type is fetched as a serie and filed as an anime: the
    poster goes to the serie covers while the note, tagged [anime], goes
    to the animes. *)
Theorem media_run_shelves (media_type : Z) (fetched : Media.Fetched) :
  let '(covers, notes, tag) := media_shelf media_type in
  let media_info := Media.info_of fetched in
  Media.main media_type (Some fetched) true
  = (if nonempty (Media.f_poster_path fetched)
     then [Vault.Download
             ("https://image.tmdb.org/t/p/original"
              ++ interpolate (Media.f_poster_path fetched))%string
             covers (Media.slug media_info ++ ".jpg")%string]
     else [])
    ++ [Vault.WriteMarkdown notes (Media.slug media_info ++ ".md")%string
          (Media.generateMarkdown media_info tag)].
Proof.
  unfold media_shelf, Media.main, Media.fetchMovieById, Media.fetchSerieById,
    Media.poster, Media.downloadImage, Media.createMarkdownFile.
  destruct (media_type =? 1) eqn:E1; [|destruct (media_type =? 2) eqn:E2;
    [|destruct (media_type =? 3) eqn:E3]];
    destruct (Media.f_poster_path fetched) as [[|? ?]|]; try reflexivity.
  all: apply Z.eqb_eq in E2; subst media_type; reflexivity.
Qed.

(* ================================================================== *)
(** * Further properties of the prompts *)
(* ================================================================== *)

Lemma digit_byte (a : N) :
  ((48 <=? a) && (a <=? 57))%N = true ->
  (a = 48 \/ a = 49 \/ a = 50 \/ a = 51 \/ a = 52
   \/ a = 53 \/ a = 54 \/ a = 55 \/ a = 56 \/ a = 57)%N.
Proof.
  intros H. apply andb_true_iff in H. destruct H as (L & U).
  apply N.leb_le in L, U. lia.
Qed.

Ltac each_digit H :=
  apply digit_byte in H;
  destruct H as [-> | [-> | [-> | [-> | [-> | [-> | [-> | [-> | [-> | ->]]]]]]]]].

Lemma all_digits_bytes (s : string) : all_digits s = true -> digit_bytes (bytes s).
Proof.
  unfold all_digits, bytes, digit_bytes. intros H. rewrite forallb_forall in H.
  apply Forall_map, Forall_forall. exact H.
Qed.

Lemma trim_start_digits (l : list N) : digit_bytes l -> trim_start l = l.
Proof.
  intros H. destruct H as [|a r1 D _]; [reflexivity|].
  each_digit D; destruct r1 as [|b [|c r3]]; reflexivity.
Qed.

Lemma trim_end_digits (l : list N) : digit_bytes l -> trim_end l = l.
Proof.
  intros H. induction H as [|a r D R IH]; [reflexivity|].
  cbn [trim_end]. unfold all_white.
  rewrite (trim_start_digits (a :: r)) by now constructor.
  now rewrite IH.
Qed.

Lemma span_digits_all (l : list N) :
  digit_bytes l ->
  span_digits 10 l = (map (fun a => Z.of_N (a - 48)) l, []).
Proof.
  intros H. induction H as [|a r D R IH]; [reflexivity|].
  cbn [span_digits map]. rewrite IH. each_digit D; reflexivity.
Qed.

Lemma no_radix_prefix (l : list N) : digit_bytes l -> NonDecimalIntegerLiteral l = None.
Proof.
  intros H. destruct H as [|a r D R]; [reflexivity|].
  destruct R as [|p r P R]; [each_digit D; reflexivity|].
  each_digit D; try reflexivity. each_digit P; reflexivity.
Qed.

Lemma decimal_digits (a : N) (r : list N) :
  digit_bytes (a :: r) ->
  StrDecimalLiteral (a :: r)
  = Some (Fin (inject_Z (digits_value 10 (map (fun a => Z.of_N (a - 48)) (a :: r)))
               * Qpower (10 # 1) 0)%Q).
Proof.
  intros H.
  assert (S : StrDecimalLiteral (a :: r) = StrUnsignedDecimalLiteral (a :: r)).
  { inversion H as [|? ? D _]. each_digit D; reflexivity. }
  rewrite S. unfold StrUnsignedDecimalLiteral.
  destruct (list_eq_dec N.eq_dec (a :: r) (bytes "Infinity")) as [E|_].
  { inversion H as [|? ? D _]. injection E as -> _. discriminate D. }
  rewrite (span_digits_all _ H). cbn [map]. rewrite app_nil_r. reflexivity.
Qed.

Lemma digits_value_zero (digits : list ascii) (acc : Z) :
  forallb (fun a => (48 <=? N_of_ascii a)%N && (N_of_ascii a <=? 57)%N) digits = true ->
  0 <= acc ->
  (fold_left (fun acc d => acc * 10 + d)
     (map (fun a => Z.of_N (a - 48)) (map N_of_ascii digits)) acc <=? 0)
  = (acc <=? 0) && negb (existsb (fun a => negb (Ascii.eqb a "0")) digits).
Proof.
  revert acc. induction digits as [|a digits IH]; intros acc D A.
  - simpl. now rewrite andb_true_r.
  - cbn [forallb] in D. apply andb_true_iff in D. destruct D as (Da & D).
    cbn [map fold_left existsb].
    assert (R : 0 <= Z.of_N (N_of_ascii a - 48)) by lia.
    rewrite (IH _ D) by lia. rewrite negb_orb, negb_involutive, andb_assoc. f_equal.
    apply andb_true_iff in Da. destruct Da as (L & U). apply N.leb_le in L, U.
    destruct (Ascii.eqb_spec a "0") as [->|N].
    + rewrite andb_true_r. change (Z.of_N (N_of_ascii "0" - 48)) with 0.
      destruct (Z.leb_spec (acc * 10 + 0) 0), (Z.leb_spec acc 0); lia || reflexivity.
    + rewrite andb_false_r. apply Z.leb_gt.
      assert (N_of_ascii a <> 48%N).
      { intros E. apply N. rewrite <- (ascii_N_embedding a), E. reflexivity. }
      lia.
Qed.

Lemma digits_not_positive (value : string) :
  all_digits value = true ->
  Vault.not_a_positive_integer value = negb (some_nonzero value).
Proof.
  intros D. pose proof (all_digits_bytes value D) as B.
  unfold Vault.not_a_positive_integer, StringToNumber.
  rewrite (trim_start_digits _ B), (trim_end_digits _ B).
  destruct (bytes value) as [|a r] eqn:E.
  - destruct value; [reflexivity | discriminate E].
  - rewrite (no_radix_prefix _ B), (decimal_digits a r B), <- E.
    unfold isNaN, Number_isInteger, number_le, number_lt, Qle_bool.
    cbn [Qpower Qmult Qnum Qden Pos.mul inject_Z negb orb].
    rewrite Z.mod_1_r, negb_involutive. cbn [Z.eqb negb orb].
    unfold digits_value, bytes, some_nonzero.
    replace (fold_left _ _ 0 * 1 * 1 <=? 0 * 1)
      with (fold_left (fun acc d => acc * 10 + d)
              (map (fun a => Z.of_N (a - 48)) (map N_of_ascii (list_ascii_of_string value)))
              0 <=? 0) by (f_equal; lia).
    now rewrite (digits_value_zero _ 0 D).
Qed.

(** X14.  The ID prompts on digits.  On a string of up to fifteen digits,
    which reads as an integer that a binary64 float holds exactly, the
    three ID prompts answer alike: they accept it exactly when one of its
    digits is not [0].  The empty string and a string of zeros are turned
    down, leading zeros are let through. *)
Theorem validate_digits (value : string) :
  all_digits value = true ->
  (String.length value <= 15)%nat ->
  (Games.validate value = Vault.Valid <-> some_nonzero value = true)
  /\ (LightNovels.validate value = Vault.Valid <-> some_nonzero value = true)
  /\ (Media.validate value = Vault.Valid <-> some_nonzero value = true).
Proof.
  intros D _. unfold Games.validate, LightNovels.validate, Media.validate.
  rewrite (digits_not_positive value D).
  destruct (some_nonzero value); simpl; repeat split; congruence.
Qed.

Lemma validate_digits_witness :
  (Games.validate "007" = Vault.Valid <-> some_nonzero "007" = true)
  /\ (LightNovels.validate "007" = Vault.Valid <-> some_nonzero "007" = true)
  /\ (Media.validate "007" = Vault.Valid <-> some_nonzero "007" = true).
Proof.
  apply (validate_digits "007"); [reflexivity | simpl; lia].
Defined.

(* ================================================================== *)
(** * Further properties of the runs *)
(* ================================================================== *)

Lemma pad2_digits (n : Z) :
  0 <= n < 100 -> Games.pad2 (decimal n) = digits_of 2 n.
Proof.
  intros H. rewrite <- (Z2Nat.id n) by lia.
  assert (B : (Z.to_nat n < 100)%nat) by lia.
  generalize dependent (Z.to_nat n). clear H. intros k B.
  do 100 (destruct k as [|k]; [reflexivity|]). lia.
Qed.

Lemma years_in_digits :
  forallb (fun k => String.eqb (decimal (1000 + Z.of_nat k))
                      (digits_of 4 (1000 + Z.of_nat k)))
    (seq 0 (Z.to_nat 9000)) = true.
Proof. vm_compute. reflexivity. Qed.

Lemma decimal_year (year : Z) :
  1000 <= year <= 9999 -> decimal year = digits_of 4 year.
Proof.
  intros H. pose proof years_in_digits as Y. rewrite forallb_forall in Y.
  specialize (Y (Z.to_nat (year - 1000))). apply String.eqb_eq.
  replace (1000 + Z.of_nat (Z.to_nat (year - 1000))) with year in Y by lia.
  apply Y. apply in_seq. lia.
Qed.

(** X15.  The release date of a game.  When the calendar of the machine
    gives a month from 0 to 11 and a day from 1 to 31 for the release
    time, the formatted date is the year, a hyphen, the month counted from
    1 in two digits, a hyphen and the day in two digits; a year from 1000
    to 9999 takes its four digits, so that the date reads [YYYY-MM-DD]. *)
Theorem release_date_shape (calendar : Z -> Z * Z * Z) (t year month day : Z) :
  calendar (t * 1000) = (year, month, day) ->
  0 <= month <= 11 ->
  1 <= day <= 31 ->
  Games.format_release_date calendar (Some t)
  = (decimal year ++ "-" ++ digits_of 2 (month + 1) ++ "-" ++ digits_of 2 day)%string
  /\ (1000 <= year <= 9999 ->
      Games.format_release_date calendar (Some t)
      = (digits_of 4 year ++ "-" ++ digits_of 2 (month + 1)
         ++ "-" ++ digits_of 2 day)%string).
Proof.
  intros C M D.
  assert (F : Games.format_release_date calendar (Some t)
              = (decimal year ++ "-" ++ digits_of 2 (month + 1)
                 ++ "-" ++ digits_of 2 day)%string).
  { unfold Games.format_release_date. rewrite C.
    now rewrite (pad2_digits (month + 1)), (pad2_digits day) by lia. }
  split; [exact F|]. intros Y. now rewrite F, (decimal_year year Y).
Qed.

Lemma release_date_shape_witness :
  Games.format_release_date (fun _ => (2015, 4, 9)) (Some 1431129600) = "2015-05-09".
Proof.
  apply (release_date_shape (fun _ => (2015, 4, 9)) 1431129600 2015 4 9);
    [reflexivity | lia | lia | lia].
Defined.

(** X16.  The address of the cover of a game.  A cover address of IGDB
    that starts with two slashes is downloaded over [https:], with its
    first [t_thumb] turned into [t_original]: the replacement leaves the
    two slashes where they are. *)
Theorem game_cover_address (calendar : Z -> Z * Z * Z) (token : jsval)
    (game_fetched : Games.Game) (rest : string) :
  truthy token = true ->
  Games.g_cover game_fetched = Some {| Games.url := Some ("//" ++ rest)%string |} ->
  fst (Games.fetchGameById calendar (Value token) (Some game_fetched) true)
  = [Vault.Download
       ("https://" ++ replace_first "t_thumb" "t_original" rest)%string
       Games.GAME_COVERS_PATH (Games.g_slug game_fetched ++ ".jpg")%string].
Proof.
  intros T C. unfold Games.fetchGameById. rewrite T, C. simpl.
  unfold startsWith.
  now destruct (replace_first "t_thumb" "t_original" rest).
Qed.

Lemma game_cover_address_witness :
  let game_fetched :=
    {| Games.g_name := "Outer Wilds";
       Games.g_slug := "outer-wilds";
       Games.g_first_release_date := Some 1559174400;
       Games.g_cover :=
         Some {| Games.url :=
                   Some "//images.igdb.com/igdb/image/upload/t_thumb/co65ac.jpg" |};
       Games.g_genres := Some ["adventure"];
       Games.g_themes := None;
       Games.g_summary := None |} in
  fst (Games.fetchGameById (fun _ => (2019, 4, 30)) (Value (val (JStr "abc")))
         (Some game_fetched) true)
  = [Vault.Download "https://images.igdb.com/igdb/image/upload/t_original/co65ac.jpg"
       Games.GAME_COVERS_PATH "outer-wilds.jpg"].
Proof.
  intros game_fetched.
  apply (game_cover_address (fun _ => (2019, 4, 30)) (val (JStr "abc")) game_fetched
           "images.igdb.com/igdb/image/upload/t_thumb/co65ac.jpg");
    reflexivity.
Defined.

(** X17.  A run that stops leaves the vault alone.  In each of the five
    scripts, a run whose request to the metadata service fails, and a run
    that the user declines at the prompt, downloads no cover and writes no
    note: all it can do is end the process. *)
Theorem stopped_run_untouched (calendar : Z -> Z * Z * Z) (w : World) (confirm : bool)
    (game : option Games.Game) (volume : option Books.VolumeInfo)
    (series : option LightNovels.Series)
    (media_type : Z) (fetched : option Media.Fetched)
    (id : string) (isManga : bool) (attributes : option Manga.Attributes)
    (covers : option (list string)) :
  (vault_untouched (Games.main calendar w None confirm)
   /\ vault_untouched (Games.main calendar w game false))
  /\ (vault_untouched (Books.main None confirm)
      /\ vault_untouched (Books.main volume false))
  /\ (vault_untouched (LightNovels.main None confirm)
      /\ vault_untouched (LightNovels.main series false))
  /\ (vault_untouched (Media.main media_type None confirm)
      /\ vault_untouched (Media.main media_type fetched false))
  /\ (vault_untouched (Manga.main id isManga None confirm covers)
      /\ vault_untouched (Manga.main id isManga attributes false covers)).
Proof.
  assert (N : vault_untouched []) by (intros a []).
  assert (E : forall code, vault_untouched [Vault.Exit code]).
  { intros code a [<-|[]]. now exists code. }
  repeat split.
  - unfold Games.main, Games.fetchGameById.
    destruct (fst (getToken w)) as [token|e]; [|exact N].
    destruct (truthy token); [exact N | apply E].
  - unfold Games.main, Games.fetchGameById.
    destruct (fst (getToken w)) as [token|e]; [|exact N].
    destruct (truthy token); [|apply E]. destruct game; [apply E | exact N].
  - exact N.
  - destruct volume; [apply E | exact N].
  - exact N.
  - destruct series; [apply E | exact N].
  - unfold Media.main. destruct (media_type =? 1); exact N.
  - unfold Media.main, Media.fetchMovieById, Media.fetchSerieById.
    destruct (media_type =? 1), fetched; first [apply E | exact N].
  - exact N.
  - destruct attributes; [apply E | exact N].
Qed.
